(** * Forward-mode automatic differentiation (package [autodiff])

    A shallow embedding of the Go package [autodiff]: dual numbers over
    IEEE 754 binary64 ([float64], here Rocq's primitive [float]), Variables
    held behind pointers in a heap, the in-place operators, the pure
    constructors, the elementary functions and the gradient driver.

    Go's [panic] is an outcome [Abort]; the heap reached when the panic is
    raised stays observable, as it is to a deferred [recover].

    Every arithmetic operation is rounded on its own, as the Go compiler does
    on amd64 (no fused multiply-add). The functions of Go's package [math]
    are not part of the package: they are a parameter, [mathpkg]. A slice is
    a list value, which is enough where the callee's writes to it are never
    read back. *)

From Stdlib Require Import Floats ZArith Lia Bool.
From stdpp Require Import base option list strings.

(** ** Data model *)

(** [type DualNumber struct { Value float64; Deriv float64 }] *)
Record DualNumber := { Value : float; Deriv : float }.

(** [type Variable struct { dual DualNumber }]; the name [Variable] is taken
    by the vernacular, the record is called [Var]. *)
Record Var := { dual : DualNumber }.

(** The Variable with the given value and tangent. *)
Definition mkVar (value deriv : float) : Var :=
  {| dual := {| Value := value; Deriv := deriv |} |}.

(** A [*Variable]: [nil] or the address of an allocated Variable. *)
Inductive ptr := nil | addr (l : nat).

(** The allocated Variables, by address. *)
Abbreviation heap := (list Var).

(** What stops an evaluation: a [panic(msg)] of the package, or one of the two
    run-time panics the modelled statements can raise. *)
Inductive panic :=
| Panic (msg : string)
| NilDereference
| IndexOutOfRange.

(** The spec's names for the package's panics. *)
Definition DivisionByZero : panic := Panic "division by zero".
Definition LogDomainError : panic := Panic "log of non-positive number".
Definition PowDomainError : panic := Panic "invalid power operation".

Definition DomainError (p : panic) : Prop :=
  p = LogDomainError ∨ p = PowDomainError.

Inductive outcome (A : Type) :=
| Ret (a : A)
| Abort (p : panic).
Arguments Ret {A} a.
Arguments Abort {A} p.

(** ** The evaluation monad: a heap threaded through, panics propagated *)

Definition M (A : Type) : Type := heap → outcome A * heap.

#[global] Instance M_ret : MRet M := λ A a h, (Ret a, h).

#[global] Instance M_bind : MBind M := λ A B k m h,
  match m h with
  | (Ret a, h') => k a h'
  | (Abort p, h') => (Abort p, h')
  end.

Definition raise {A} (p : panic) : M A := λ h, (Abort p, h).

(** [*p] *)
Definition load (p : ptr) : M Var := λ h,
  match p with
  | nil => (Abort NilDereference, h)
  | addr l =>
      match h !! l with
      | Some v => (Ret v, h)
      | None => (Abort NilDereference, h)
      end
  end.

(** [*p = v] *)
Definition store (p : ptr) (v : Var) : M unit := λ h,
  match p with
  | nil => (Abort NilDereference, h)
  | addr l =>
      if decide (l < length h) then (Ret (), <[l:=v]> h)
      else (Abort NilDereference, h)
  end.

(** [&Variable{...}]: a fresh address. *)
Definition new (v : Var) : M ptr := λ h, (Ret (addr (length h)), h ++ [v]).

(** [p.dual.Value] and [p.dual.Deriv], read and written. *)
Definition get_Value (p : ptr) : M float := v ← load p; mret (Value (dual v)).
Definition get_Deriv (p : ptr) : M float := v ← load p; mret (Deriv (dual v)).

Definition set_Value (p : ptr) (a : float) : M unit :=
  v ← load p; store p (mkVar a (Deriv (dual v))).
Definition set_Deriv (p : ptr) (a : float) : M unit :=
  v ← load p; store p (mkVar (Value (dual v)) a).

(** [s[i]] and [s[i] = x] on a slice the callee does not share. *)
Definition index {A} (s : list A) (i : nat) : M A := λ h,
  match s !! i with
  | Some x => (Ret x, h)
  | None => (Abort IndexOutOfRange, h)
  end.

Definition assign {A} (s : list A) (i : nat) (x : A) : M (list A) :=
  if decide (i < length s) then mret (<[i:=x]> s) else raise IndexOutOfRange.

(** [for i := range ... { s = body i s }] over the indices [ixs]. *)
Fixpoint for_range {S} (ixs : list nat) (body : nat → S → M S) (s : S) : M S :=
  match ixs with
  | [] => mret s
  | i :: ixs' => s' ← body i s; for_range ixs' body s'
  end.

(** ** Constructors and accessors *)

Definition NewVariable (value deriv : float) : M ptr := new (mkVar value deriv).
Definition NewScalar (value : float) : M ptr := new (mkVar value 0).
Definition NewInput (value : float) : M ptr := new (mkVar value 1).

Definition Variable_Value (v : ptr) : M float := get_Value v.
Definition Variable_Deriv (v : ptr) : M float := get_Deriv v.

(** ** In-place operators, one field assignment after the other as in the source *)

Definition Variable_Add (v v2 : ptr) : M unit :=
  a ← get_Value v; b ← get_Value v2; set_Value v (a + b);;
  a' ← get_Deriv v; b' ← get_Deriv v2; set_Deriv v (a' + b').

Definition Variable_Sub (v v2 : ptr) : M unit :=
  a ← get_Value v; b ← get_Value v2; set_Value v (a - b);;
  a' ← get_Deriv v; b' ← get_Deriv v2; set_Deriv v (a' - b').

Definition Variable_Mul (v v2 : ptr) : M unit :=
  a' ← get_Deriv v; b ← get_Value v2; a ← get_Value v; b' ← get_Deriv v2;
  set_Deriv v (a' * b + a * b');;
  a ← get_Value v; b ← get_Value v2; set_Value v (a * b).

Definition Variable_Div (v v2 : ptr) : M unit :=
  b ← get_Value v2;
  if (b =? 0)%float then raise DivisionByZero
  else
    a' ← get_Deriv v; b ← get_Value v2; a ← get_Value v; b' ← get_Deriv v2;
    c ← get_Value v2; c' ← get_Value v2;
    set_Deriv v ((a' * b - a * b') / (c * c'));;
    a ← get_Value v; b ← get_Value v2; set_Value v (a / b).

(** ** Elementary functions *)

(** The functions of Go's package [math] that the package calls. *)
Record mathpkg := {
  math_Sin : float → float;
  math_Cos : float → float;
  math_Exp : float → float;
  math_Log : float → float;
  math_Pow : float → float → float
}.

Section Elementary.
Variable math : mathpkg.

Definition sin (x : float) : float := math_Sin math x.
Definition cos (x : float) : float := math_Cos math x.
Definition exp (x : float) : float := math_Exp math x.
Definition log (x : float) : float := math_Log math x.
Definition pow (x y : float) : float := math_Pow math x y.

Definition Sin (v : ptr) : M ptr :=
  x ← get_Value v; x' ← get_Value v; d ← get_Deriv v;
  new (mkVar (sin x) (cos x' * d)).

Definition Cos (v : ptr) : M ptr :=
  x ← get_Value v; x' ← get_Value v; d ← get_Deriv v;
  new (mkVar (cos x) (- sin x' * d)).

Definition Exp (v : ptr) : M ptr :=
  x ← get_Value v;
  let expVal := exp x in
  d ← get_Deriv v;
  new (mkVar expVal (expVal * d)).

Definition Log (v : ptr) : M ptr :=
  x ← get_Value v;
  if (x <=? 0)%float then raise LogDomainError
  else
    x ← get_Value v; d ← get_Deriv v; x' ← get_Value v;
    new (mkVar (log x) (d / x')).

Definition Pow (v : ptr) (exponent : float) : M ptr :=
  x ← get_Value v;
  if (x =? 0)%float && (exponent <=? 0)%float then raise PowDomainError
  else
    x ← get_Value v;
    let powVal := pow x (exponent - 1) in
    x' ← get_Value v; d ← get_Deriv v;
    new (mkVar (powVal * x') (exponent * powVal * d)).
End Elementary.

(** ** Pure constructors *)

Definition Add (v1 v2 : ptr) : M ptr :=
  a ← get_Value v1; b ← get_Value v2; a' ← get_Deriv v1; b' ← get_Deriv v2;
  new (mkVar (a + b) (a' + b')).

Definition Mul (v1 v2 : ptr) : M ptr :=
  a ← get_Value v1; b ← get_Value v2;
  a' ← get_Deriv v1; b2 ← get_Value v2; a2 ← get_Value v1; b' ← get_Deriv v2;
  new (mkVar (a * b) (a' * b2 + a2 * b')).

(** ** Gradient driver *)

(** The inner loop of [Gradient]: [vars[j]] is an input at [j = i] and a
    scalar elsewhere. *)
Definition seed_vars (i : nat) (inputs : list float) (vars : list ptr) : M (list ptr) :=
  for_range (seq 0 (length vars)) (λ j vars,
    x ← index inputs j;
    p ← (if decide (i = j) then NewInput x else NewScalar x);
    assign vars j p) vars.

Definition Gradient (f : list ptr → M ptr) (inputs : list float) : M (list float) :=
  let grad := replicate (length inputs) 0%float in
  for_range (seq 0 (length inputs)) (λ i grad,
    let vars := replicate (length inputs) nil in
    vars ← seed_vars i inputs vars;
    result ← f vars;
    d ← Variable_Deriv result;
    assign grad i d) grad.

(** [func(v []*Variable) *Variable { return Mul(v[0], v[1]) }] *)
Definition product01 (v : list ptr) : M ptr :=
  a ← index v 0; b ← index v 1; Mul a b.

(** The start of [main]: [z = x*y + sin(x)] with both [x] and [y] created by
    [NewInput]; what [z.Value()] and [z.Deriv()] then return. *)
Definition main_z (math : mathpkg) : M (float * float) :=
  x ← NewInput 2;
  y ← NewInput 3;
  z1 ← Mul x y;
  z2 ← Sin math x;
  z ← Add z1 z2;
  value ← Variable_Value z;
  deriv ← Variable_Deriv z;
  mret (value, deriv).

(** ** The Dual Value laws of the design (section 4.1), to compare the operators with *)

Definition dual_add (x y : DualNumber) : DualNumber :=
  {| Value := Value x + Value y; Deriv := Deriv x + Deriv y |}.

Definition dual_sub (x y : DualNumber) : DualNumber :=
  {| Value := Value x - Value y; Deriv := Deriv x - Deriv y |}.

Definition dual_mul (x y : DualNumber) : DualNumber :=
  {| Value := Value x * Value y; Deriv := Deriv x * Value y + Value x * Deriv y |}.

Definition dual_div (x y : DualNumber) : outcome DualNumber :=
  if (Value y =? 0)%float then Abort DivisionByZero
  else Ret {| Value := Value x / Value y;
              Deriv := (Deriv x * Value y - Value x * Deriv y) / (Value y * Value y) |}.

(** ** The gradient, one dimension at a time (section 4.5) *)

(** Step 1: the Variables of pass [i], dimension [i] an input, the others
    scalars. *)
Definition seeds (i : nat) (point : list float) : list Var :=
  imap (λ j x, if decide (i = j) then mkVar x 1 else mkVar x 0) point.

(** Steps 2 and 3: [f] on the freshly allocated seeds, and the tangent of
    its result. *)
Definition partial_derivative (f : list ptr → M ptr) (point : list float) (i : nat) : M float :=
  λ h, (result ← f (addr <$> seq (length h) (length point)); Variable_Deriv result)
         (h ++ seeds i point).

Fixpoint gradient_by_dimension (f : list ptr → M ptr) (point : list float)
    (dims : list nat) : M (list float) :=
  match dims with
  | [] => mret []
  | i :: dims' =>
      d ← partial_derivative f point i;
      ds ← gradient_by_dimension f point dims';
      mret (d :: ds)
  end.

(** ** Accuracy of a library function at a point *)

(** The [n] floats above [c] and the [n] floats below it. *)
Fixpoint floats_above (n : nat) (c : float) : list float :=
  match n with
  | 0 => []
  | S n' => next_up c :: floats_above n' (next_up c)
  end.

Fixpoint floats_below (n : nat) (c : float) : list float :=
  match n with
  | 0 => []
  | S n' => next_down c :: floats_below n' (next_down c)
  end.

(** [x] is [c] or one of the [n] nearest floats on either side of it. *)
Definition within_ulps (n : nat) (c x : float) : Prop :=
  In x (c :: floats_above n c ++ floats_below n c).

(** [|x - c| <= 0.0000005]: [x] is [c] to six decimals. *)
Definition six_decimals (c x : float) : Prop :=
  (abs (x - c) <=? 0x1.0c6f7a0b5ed8dp-21)%float = true.

(** The nearest floats to sin 2 and to cos 2. *)
Definition sin_2 : float := 0x1.d18f6ead1b446p-1.
Definition cos_2 : float := (-0x1.aa22657537205p-2)%float.

(** A library that answers as Go's [math] does at the arguments used in the
    examples below: [Sin(2)], [Cos(2)], and [Pow] of a zero base with an
    exponent that is not an odd integer ([+Inf] when negative, [1] at zero,
    [+0] when positive). *)
Definition math_table : mathpkg := {|
  math_Sin x := if (x =? 2)%float then sin_2 else nan;
  math_Cos x := if (x =? 2)%float then cos_2 else nan;
  math_Exp x := if (x =? 0)%float then 1%float else nan;
  math_Log x := if (x =? 1)%float then 0%float else nan;
  math_Pow x y :=
    if (y =? 0)%float then 1%float
    else if (x =? 0)%float then (if (y <? 0)%float then infinity else 0%float)
    else nan
|}.

(** The decimals the design expects of [z]: 6.909297 and 4.583853, as the
    nearest floats. *)
Definition expected_value : float := 0x1.ba31ec0b56755p+2.
Definition expected_deriv : float := 0x1.255dd8f92af9bp+2.

(** ** The calls that must not write through their operands *)

Definition pure_calls (math : mathpkg) (v1 v2 : ptr) (e : float) : list (M ptr) :=
  [ Add v1 v2; Mul v1 v2;
    Sin math v1; Cos math v1; Exp math v1; Log math v1; Pow math v1 e;
    Sin math v2; Cos math v2; Exp math v2; Log math v2; Pow math v2 e ].

(** ** What an in-place operator does to the heap *)

(** [op], run from [h], returns normally, having written [r] into the
    Variable at [l]; afterwards the Variable at [l2] holds [v2]. *)
Definition writes (h : heap) (op : M unit) (l : nat) (r : Var) (l2 : nat) (v2 : Var) : Prop :=
  op h = (Ret (), <[l := r]> h) ∧
  snd (op h) !! l = Some r ∧
  snd (op h) !! l2 = Some v2.

(** ** IEEE 754 binary64: the shapes of finite numbers *)

Inductive finite_shape : spec_float → Prop :=
| shape_zero s : finite_shape (S754_zero s)
| shape_finite s m e : bounded prec emax m e = true → finite_shape (S754_finite s m e).

(** Twice the valid finite number [(s, m, e)]: the exponent moves for a
    normal number, the mantissa for a subnormal one. *)
Definition SFdouble (s : bool) (m : positive) (e : Z) : spec_float :=
  if (Z.pos (digits2_pos m) =? 53)%Z
  then (if (e + 1 <=? 971)%Z then S754_finite s m (e + 1) else S754_infinity s)
  else S754_finite s m~0 e.

(** * Further definitions: the rest of the package and of [main] *)

(** ** The end of [main] *)

(** [main] after "Reset": [x] is now a scalar, [y] an input, and [z.Deriv()]
    is what the last line prints. *)
Definition main_dy (math : mathpkg) : M float :=
  x ← NewScalar 2;
  y ← NewInput 3;
  z1 ← Mul x y;
  z2 ← Sin math x;
  z ← Add z1 z2;
  Variable_Deriv z.

(** The three numbers [main] prints: the value, "df/dx" and "df/dy". *)
Definition main_printed (math : mathpkg) : M (float * float * float) :=
  '(value, dx) ← main_z math;
  dy ← main_dy math;
  mret (value, dx, dy).

(** ** Allocated operands *)

Definition allocated (h : heap) (p : ptr) : Prop :=
  ∃ l x, p = addr l ∧ h !! l = Some x.

(** The in-place operators. *)
Definition in_place_operators : list (ptr → ptr → M unit) :=
  [Variable_Add; Variable_Sub; Variable_Mul; Variable_Div].

(** ** Functions built from the pure operations *)

(** The body of a function [f(v []*Variable) *Variable] that only uses its
    Variables, scalar constants and the package's pure operations. *)
Inductive expr :=
| EVar (i : nat)
| EScalar (c : float)
| EAdd (a b : expr)
| EMul (a b : expr)
| ESin (a : expr)
| ECos (a : expr)
| EExp (a : expr)
| ELog (a : expr)
| EPow (a : expr) (exponent : float).

(** The function itself: [v[i]], [NewScalar(c)], [Add(a, b)], ..., the
    arguments of a call evaluated from left to right. *)
Fixpoint eval (math : mathpkg) (e : expr) (v : list ptr) : M ptr :=
  match e with
  | EVar i => index v i
  | EScalar c => NewScalar c
  | EAdd a b => x ← eval math a v; y ← eval math b v; Add x y
  | EMul a b => x ← eval math a v; y ← eval math b v; Mul x y
  | ESin a => x ← eval math a v; Sin math x
  | ECos a => x ← eval math a v; Cos math x
  | EExp a => x ← eval math a v; Exp math x
  | ELog a => x ← eval math a v; Log math x
  | EPow a exponent => x ← eval math a v; Pow math x exponent
  end.

(** The chain-rule laws of the design (section 4.4) on Dual Values. *)
Definition dual_sin (math : mathpkg) (x : DualNumber) : DualNumber :=
  {| Value := sin math (Value x); Deriv := cos math (Value x) * Deriv x |}.

Definition dual_cos (math : mathpkg) (x : DualNumber) : DualNumber :=
  {| Value := cos math (Value x); Deriv := - sin math (Value x) * Deriv x |}.

Definition dual_exp (math : mathpkg) (x : DualNumber) : DualNumber :=
  {| Value := exp math (Value x); Deriv := exp math (Value x) * Deriv x |}.

Definition dual_log (math : mathpkg) (x : DualNumber) : outcome DualNumber :=
  if (Value x <=? 0)%float then Abort LogDomainError
  else Ret {| Value := log math (Value x); Deriv := Deriv x / Value x |}.

Definition dual_pow (math : mathpkg) (x : DualNumber) (e : float) : outcome DualNumber :=
  if (Value x =? 0)%float && (e <=? 0)%float then Abort PowDomainError
  else Ret {| Value := pow math (Value x) (e - 1) * Value x;
              Deriv := e * pow math (Value x) (e - 1) * Deriv x |}.

Definition outcome_bind {A B} (o : outcome A) (k : A → outcome B) : outcome B :=
  match o with
  | Ret a => k a
  | Abort p => Abort p
  end.

(** The expression on Dual Values, no heap involved. *)
Fixpoint dual_eval (math : mathpkg) (e : expr) (ds : list DualNumber) : outcome DualNumber :=
  match e with
  | EVar i =>
      match ds !! i with
      | Some d => Ret d
      | None => Abort IndexOutOfRange
      end
  | EScalar c => Ret {| Value := c; Deriv := 0 |}
  | EAdd a b =>
      outcome_bind (dual_eval math a ds) (λ x,
      outcome_bind (dual_eval math b ds) (λ y, Ret (dual_add x y)))
  | EMul a b =>
      outcome_bind (dual_eval math a ds) (λ x,
      outcome_bind (dual_eval math b ds) (λ y, Ret (dual_mul x y)))
  | ESin a => outcome_bind (dual_eval math a ds) (λ x, Ret (dual_sin math x))
  | ECos a => outcome_bind (dual_eval math a ds) (λ x, Ret (dual_cos math x))
  | EExp a => outcome_bind (dual_eval math a ds) (λ x, Ret (dual_exp math x))
  | ELog a => outcome_bind (dual_eval math a ds) (dual_log math)
  | EPow a exponent => outcome_bind (dual_eval math a ds) (λ x, dual_pow math x exponent)
  end.

(** The gradient on Dual Values: the tangent of the expression on the
    seeds of each dimension in turn, up to the first failure. *)
Fixpoint dual_gradient_dims (math : mathpkg) (e : expr) (point : list float)
    (dims : list nat) : outcome (list float) :=
  match dims with
  | [] => Ret []
  | i :: dims' =>
      outcome_bind (dual_eval math e (dual <$> seeds i point)) (λ d,
      outcome_bind (dual_gradient_dims math e point dims') (λ ds,
      Ret (Deriv d :: ds)))
  end.

Definition dual_gradient (math : mathpkg) (e : expr) (point : list float) : outcome (list float) :=
  dual_gradient_dims math e point (seq 0 (length point)).

(** The Variables [vars] hold the Dual Values [ds] in the heap [h]. *)
Definition hold (h : heap) (vars : list ptr) (ds : list DualNumber) : Prop :=
  Forall2 (λ p d, ∃ l, p = addr l ∧ h !! l = Some {| dual := d |}) vars ds.

(** [x*y + sin(x)] over [v[0]] and [v[1]], the expression of [main]. *)
Definition xy_plus_sin_x : expr := EAdd (EMul (EVar 0) (EVar 1)) (ESin (EVar 0)).

(** [func(v []*Variable) *Variable { v[0].Div(v[1]); return v[0] }]: a
    function that divides in place. *)
Definition quotient01 (v : list ptr) : M ptr :=
  a ← index v 0; b ← index v 1; Variable_Div a b;; mret a.

(** A library that answers at 2 only, with the nearest floats to sin 2,
    cos 2, e^2 and ln 2. *)
Definition exp_2 : float := 0x1.d8e64b8d4ddaep+2.
Definition log_2 : float := 0x1.62e42fefa39efp-1.

Definition math_at_two : mathpkg := {|
  math_Sin x := if (x =? 2)%float then sin_2 else nan;
  math_Cos x := if (x =? 2)%float then cos_2 else nan;
  math_Exp x := if (x =? 2)%float then exp_2 else nan;
  math_Log x := if (x =? 2)%float then log_2 else nan;
  math_Pow x y := if (x =? 2)%float && (y =? 1)%float then 2%float else nan
|}.

(** [func(v []*Variable) *Variable { v[0].Mul(v[1]); return v[0] }]: the
    product computed in place, in the first Variable. *)
Definition product01_in_place (v : list ptr) : M ptr :=
  a ← index v 0; b ← index v 1; Variable_Mul a b;; mret a.

(** What a run from [h] has to do to agree with an outcome on Dual Values:
    extend the heap, and return a Variable that holds the Dual Value, or
    panic in the same way. *)
Definition agrees (h : heap) (run : outcome ptr * heap) (o : outcome DualNumber) : Prop :=
  ∃ k, snd run = h ++ k ∧
       match o with
       | Ret d => ∃ r, fst run = Ret (addr r) ∧ (h ++ k) !! r = Some {| dual := d |}
       | Abort p => fst run = Abort p
       end.

(** * Proofs *)

(** ** IEEE 754 binary64 arithmetic, from the specification of the primitive operations *)

Module Binary64.
Local Open Scope float_scope.

(** Multiplication commutes, rounding included. *)
Lemma mul_comm (x y : float) : x * y = y * x.
Proof.
  apply Prim2SF_inj. rewrite !mul_spec. unfold SF64mul.
  destruct (Prim2SF x) as [sx|sx| |sx mx ex], (Prim2SF y) as [sy|sy| |sy my ey];
    simpl; try reflexivity; try (rewrite xorb_comm; reflexivity).
  rewrite xorb_comm, Pos.mul_comm, Z.add_comm. reflexivity.
Qed.

Lemma Prim2SF_zero : Prim2SF 0 = S754_zero false.
Proof. reflexivity. Qed.

Lemma Prim2SF_one : Prim2SF 1 = S754_finite false 4503599627370496 (-52).
Proof. reflexivity. Qed.

Lemma Prim2SF_two : Prim2SF 2 = S754_finite false 4503599627370496 (-51).
Proof. reflexivity. Qed.

(** A finite float is a zero or a valid mantissa and exponent. *)
Lemma is_finite_shape (x : float) : is_finite x = true → finite_shape (Prim2SF x).
Proof.
  intros Hf. pose proof (Prim2SF_valid x) as Hv.
  unfold is_finite, is_nan, is_infinity in Hf.
  rewrite !FloatAxioms.eqb_spec, abs_spec in Hf.
  change (Prim2SF infinity) with (S754_infinity false) in Hf.
  destruct (Prim2SF x) as [s|s| |s m e].
  - constructor.
  - destruct s; discriminate.
  - discriminate.
  - constructor. exact Hv.
Qed.

(** A finite nonzero float divided by itself is exactly 1. *)
Lemma div_self (x : float) :
  is_finite x = true → (x =? 0) = false → x / x = 1.
Proof.
  intros Hf Hz. apply is_finite_shape in Hf. apply Prim2SF_inj. rewrite div_spec, Prim2SF_one.
  rewrite FloatAxioms.eqb_spec, Prim2SF_zero in Hz.
  destruct Hf as [s|s m e Hb]; [destruct s; discriminate|].
  unfold SF64div, SFdiv, SFdiv_core_binary.
  rewrite xorb_nilpotent.
  replace (Z.add (Zdigits2 (Z.pos m)) e - Z.add (Zdigits2 (Z.pos m)) e)%Z with 0%Z by lia.
  rewrite Z.sub_diag.
  change (Z.min (fexp prec emax 0) 0) with (-53)%Z.
  change (0 - -53)%Z with 53%Z. cbv iota beta.
  rewrite Z.shiftl_mul_pow2 by lia.
  assert (Hd : Z.div_eucl (Z.pos m * 2 ^ 53) (Z.pos m) = (2 ^ 53, 0)%Z).
  { pose proof (Z.div_mul (2 ^ 53) (Z.pos m) ltac:(lia)) as Hq.
    pose proof (Z.mod_mul (2 ^ 53) (Z.pos m) ltac:(lia)) as Hr.
    rewrite (Z.mul_comm (Z.pos m)).
    unfold Z.div, Z.modulo in Hq, Hr.
    destruct (Z.div_eucl (2 ^ 53 * Z.pos m) (Z.pos m)) as [q r].
    cbn [fst snd] in Hq, Hr. subst q r. reflexivity. }
  change IntDef.Z.div_eucl with Z.div_eucl. rewrite Hd.
  unfold new_location. destruct (Z.even (Z.pos m)); reflexivity.
Qed.

(** A finite float minus itself is [+0]. *)
Lemma sub_self (x : float) : is_finite x = true → x - x = 0.
Proof.
  intros Hf. apply is_finite_shape in Hf. apply Prim2SF_inj.
  rewrite sub_spec, Prim2SF_zero.
  destruct Hf as [s|s m e Hb]; [destruct s; reflexivity|].
  unfold SF64sub, SFsub. rewrite Z.sub_diag. reflexivity.
Qed.

(** [+0] divided by a positive float, [+Inf] included, is [+0]. *)
Lemma zero_div_pos (y : float) : (0 <? y) = true → 0 / y = 0.
Proof.
  intros Hy. apply Prim2SF_inj. rewrite div_spec, Prim2SF_zero.
  rewrite ltb_spec, Prim2SF_zero in Hy.
  destruct (Prim2SF y) as [s|s| |s m e]; try discriminate;
    destruct s; try discriminate; reflexivity.
Qed.

(** Rounding a mantissa whose dropped bits are all zero. *)

Lemma bounded_inv m e :
  bounded prec emax m e = true →
  fexp prec emax (Z.pos (digits2_pos m) + e) = e ∧ (e <= 971)%Z.
Proof.
  unfold bounded, canonical_mantissa. intros H.
  apply andb_true_iff in H as [H1 H2].
  apply Z.eqb_eq in H1. apply Z.leb_le in H2. split; [exact H1|exact H2].
Qed.

Lemma round_aux_canonical s m e :
  fexp prec emax (Z.pos (digits2_pos m) + e) = e →
  binary_round_aux prec emax s (Z.pos m) e loc_Exact =
  if (e <=? 971)%Z then S754_finite s m e else S754_infinity s.
Proof.
  intros Hc. unfold binary_round_aux, shr_fexp. cbn [Zdigits2 shr_record_of_loc].
  rewrite Hc, Z.sub_diag. cbn [shr shr_m loc_of_shr_record round_nearest_even Zdigits2].
  rewrite Hc, Z.sub_diag. reflexivity.
Qed.

(** [n] bits are shifted out, all zero, and what remains is canonical. *)
Lemma round_aux_shr s M E n m' :
  (fexp prec emax (Zdigits2 M + E) - E)%Z = Z.pos n →
  SpecFloat.iter_pos shr_1 n (Build_shr_record M false false) =
    Build_shr_record (Z.pos m') false false →
  fexp prec emax (Z.pos (digits2_pos m') + (E + Z.pos n)) = (E + Z.pos n)%Z →
  binary_round_aux prec emax s M E loc_Exact =
  if (E + Z.pos n <=? 971)%Z then S754_finite s m' (E + Z.pos n) else S754_infinity s.
Proof.
  intros Hn Hshr Hc. unfold binary_round_aux, shr_fexp. cbn [shr_record_of_loc].
  rewrite Hn. cbn [shr]. rewrite Hshr.
  cbn [shr_m loc_of_shr_record round_nearest_even Zdigits2].
  rewrite Hc, Z.sub_diag. reflexivity.
Qed.

Lemma shr_52 m :
  SpecFloat.iter_pos shr_1 52 (Build_shr_record (Z.pos (4503599627370496 * m)) false false) =
  Build_shr_record (Z.pos m) false false.
Proof. reflexivity. Qed.

Lemma shr_51 m :
  SpecFloat.iter_pos shr_1 51 (Build_shr_record (Z.pos (4503599627370496 * m)) false false) =
  Build_shr_record (Z.pos m~0) false false.
Proof. reflexivity. Qed.

Lemma shr_1_double m :
  SpecFloat.iter_pos shr_1 1 (Build_shr_record (Z.pos m~0) false false) =
  Build_shr_record (Z.pos m) false false.
Proof. reflexivity. Qed.

Lemma digits_shift52 m :
  Z.pos (digits2_pos (4503599627370496 * m)) = (Z.pos (digits2_pos m) + 52)%Z.
Proof.
  change (4503599627370496 * m)%positive with (Pos.iter xO m 52).
  cbn [Pos.iter digits2_pos]. change PosDef.Pos.succ with Pos.succ.
  rewrite !Pos2Z.inj_succ. lia.
Qed.

Lemma digits_double m : Z.pos (digits2_pos m~0) = (Z.pos (digits2_pos m) + 1)%Z.
Proof. cbn [digits2_pos]. change PosDef.Pos.succ with Pos.succ. lia. Qed.

Ltac fexp_lia := unfold fexp, SpecFloat.emin, prec, emax in *; lia.

Lemma round_double s m e :
  bounded prec emax m e = true →
  binary_round prec emax s m~0 e = SFdouble s m e.
Proof.
  intros Hb. apply bounded_inv in Hb as [Hc He]. unfold binary_round, SFdouble.
  pose proof (digits_double m) as Hd.
  destruct (Z.eqb_spec (Z.pos (digits2_pos m)) 53) as [H53|H53].
  - assert (Hf : fexp prec emax (Z.pos (digits2_pos m~0) + e) = (e + 1)%Z) by fexp_lia.
    rewrite Hf. unfold shl_align. replace (e + 1 - e)%Z with 1%Z by lia. cbv iota beta.
    rewrite (round_aux_shr s (Z.pos m~0) e 1 m).
    + reflexivity.
    + cbn [Zdigits2]. rewrite Hf. lia.
    + apply shr_1_double.
    + fexp_lia.
  - assert (Hf : fexp prec emax (Z.pos (digits2_pos m~0) + e) = e) by fexp_lia.
    rewrite Hf. unfold shl_align. rewrite Z.sub_diag. cbv iota beta.
    rewrite round_aux_canonical by exact Hf.
    destruct (Z.leb_spec e 971); [reflexivity|lia].
Qed.

Lemma mul_two_finite s m e :
  bounded prec emax m e = true →
  binary_round_aux prec emax s (Z.pos (4503599627370496 * m)) (-51 + e) loc_Exact =
  SFdouble s m e.
Proof.
  intros Hb. apply bounded_inv in Hb as [Hc He]. unfold SFdouble.
  pose proof (digits_shift52 m) as Hd.
  destruct (Z.eqb_spec (Z.pos (digits2_pos m)) 53) as [H53|H53].
  - rewrite (round_aux_shr s _ (-51 + e) 52 m).
    + replace (-51 + e + 52)%Z with (e + 1)%Z by lia. reflexivity.
    + cbn [Zdigits2]. fexp_lia.
    + apply shr_52.
    + fexp_lia.
  - rewrite (round_aux_shr s _ (-51 + e) 51 m~0).
    + replace (-51 + e + 51)%Z with e by lia.
      destruct (Z.leb_spec e 971); [reflexivity|lia].
    + cbn [Zdigits2]. fexp_lia.
    + apply shr_51.
    + pose proof (digits_double m). fexp_lia.
Qed.

Lemma mul_one_finite s m e :
  bounded prec emax m e = true →
  binary_round_aux prec emax s (Z.pos (4503599627370496 * m)) (-52 + e) loc_Exact =
  S754_finite s m e.
Proof.
  intros Hb. apply bounded_inv in Hb as [Hc He].
  pose proof (digits_shift52 m) as Hd.
  rewrite (round_aux_shr s _ (-52 + e) 52 m).
  - replace (-52 + e + 52)%Z with e by lia.
    destruct (Z.leb_spec e 971); [reflexivity|lia].
  - cbn [Zdigits2]. fexp_lia.
  - apply shr_52.
  - fexp_lia.
Qed.

(** Multiplying by 1 changes nothing, whatever the float. *)
Lemma mul_1_l (x : float) : 1 * x = x.
Proof.
  apply Prim2SF_inj. rewrite mul_spec, Prim2SF_one.
  pose proof (Prim2SF_valid x) as Hv.
  destruct (Prim2SF x) as [s|s| |s m e]; try (destruct s; reflexivity); try reflexivity.
  unfold SF64mul, SFmul. change (xorb false s) with s.
  apply mul_one_finite. exact Hv.
Qed.

Lemma mul_1_r (x : float) : x * 1 = x.
Proof. rewrite mul_comm. apply mul_1_l. Qed.

(** [x + x] and [2 * x] are the same float, on overflow and for subnormal
    numbers too. *)
Lemma add_diag (x : float) : x + x = 2 * x.
Proof.
  apply Prim2SF_inj. rewrite add_spec, mul_spec, Prim2SF_two.
  pose proof (Prim2SF_valid x) as Hv.
  destruct (Prim2SF x) as [s|s| |s m e]; try (destruct s; reflexivity); try reflexivity.
  unfold SF64mul, SFmul. change (xorb false s) with s.
  rewrite (mul_two_finite s m e Hv).
  unfold SF64add, SFadd. rewrite Z.min_id. unfold shl_align. rewrite Z.sub_diag.
  cbn [fst].
  replace (cond_Zopp s (Z.pos m) + cond_Zopp s (Z.pos m))%Z with (cond_Zopp s (Z.pos m~0)).
  2:{ destruct s; cbn [cond_Zopp]; lia. }
  destruct s; cbn [cond_Zopp Z.opp binary_normalize]; apply round_double; exact Hv.
Qed.
(** Addition commutes, rounding and signed zeros included. *)
Lemma add_comm (x y : float) : x + y = y + x.
Proof.
  apply Prim2SF_inj. rewrite !add_spec. unfold SF64add, SFadd.
  destruct (Prim2SF x) as [sx|sx| |sx mx ex], (Prim2SF y) as [sy|sy| |sy my ey];
    try reflexivity; try (destruct sx, sy; reflexivity).
  rewrite (Z.min_comm ey ex), Z.add_comm. reflexivity.
Qed.

(** Zeros: [+0] and [-0], the floats equal to 0. *)
Lemma is_zero_spec (z : float) : is_zero z = true ↔ ∃ s, Prim2SF z = S754_zero s.
Proof.
  unfold is_zero. rewrite FloatAxioms.eqb_spec. change (Prim2SF zero) with (S754_zero false).
  destruct (Prim2SF z) as [s|s| |s m e]; split; try discriminate; try (intros [s' [=]]).
  - intros _. exists s. reflexivity.
  - reflexivity.
  - destruct s; discriminate.
  - destruct s; discriminate.
Qed.

(** A finite float times a zero is a zero. *)
Lemma mul_zero_r (x z : float) : is_finite x = true → is_zero z = true → is_zero (x * z) = true.
Proof.
  intros Hx Hz. apply is_finite_shape in Hx. apply is_zero_spec in Hz as [sz Hz].
  apply is_zero_spec. rewrite mul_spec, Hz. unfold SF64mul, SFmul.
  destruct Hx as [s|s m e _]; eexists; reflexivity.
Qed.

Lemma mul_zero_l (x z : float) : is_finite x = true → is_zero z = true → is_zero (z * x) = true.
Proof. rewrite mul_comm. apply mul_zero_r. Qed.

Lemma add_zero_zero (y z : float) : is_zero y = true → is_zero z = true → is_zero (y + z) = true.
Proof.
  intros Hy Hz. apply is_zero_spec in Hy as [sy Hy], Hz as [sz Hz].
  apply is_zero_spec. rewrite add_spec, Hy, Hz. unfold SF64add, SFadd.
  destruct sy, sz; eexists; reflexivity.
Qed.

(** Adding a zero to a float that is not a zero changes nothing. *)
Lemma add_zero_r (y z : float) : is_zero y = false → is_zero z = true → y + z = y.
Proof.
  intros Hy Hz. apply is_zero_spec in Hz as [sz Hz]. apply Prim2SF_inj.
  rewrite add_spec, Hz. unfold SF64add, SFadd.
  destruct (Prim2SF y) as [s|s| |s m e] eqn:E; try reflexivity.
  assert (is_zero y = true) by (apply is_zero_spec; eauto). congruence.
Qed.

Lemma add_zero_l (y z : float) : is_zero y = false → is_zero z = true → z + y = y.
Proof. rewrite add_comm. apply add_zero_r. Qed.

(** The converse of [is_finite_shape]. *)
Lemma shape_is_finite (x : float) : finite_shape (Prim2SF x) → is_finite x = true.
Proof.
  intros Hs. unfold is_finite, is_nan, is_infinity.
  rewrite !FloatAxioms.eqb_spec, abs_spec.
  change (Prim2SF infinity) with (S754_infinity false).
  destruct Hs as [s|s m e _]; [destruct s; reflexivity|].
  cbn [SFabs]. unfold SFeqb, SFcompare.
  rewrite Z.compare_refl, Pos.compare_cont_refl. destruct s; reflexivity.
Qed.

Lemma opp_finite (x : float) : is_finite x = true → is_finite (- x) = true.
Proof.
  intros Hx. apply is_finite_shape in Hx. apply shape_is_finite.
  rewrite opp_spec. destruct Hx as [s|s m e Hb]; constructor. exact Hb.
Qed.

Lemma sub_zero_zero (y z : float) : is_zero y = true → is_zero z = true → is_zero (y - z) = true.
Proof.
  intros Hy Hz. apply is_zero_spec in Hy as [sy Hy], Hz as [sz Hz].
  apply is_zero_spec. rewrite sub_spec, Hy, Hz. unfold SF64sub, SFsub.
  destruct sy, sz; eexists; reflexivity.
Qed.

Lemma zero_div (y z : float) :
  is_zero z = true → is_zero y = false → (y =? y) = true → is_zero (z / y) = true.
Proof.
  intros Hz Hy Hn. apply is_zero_spec in Hz as [sz Hz]. apply is_zero_spec.
  rewrite div_spec, Hz. unfold SF64div, SFdiv.
  rewrite FloatAxioms.eqb_spec in Hn.
  destruct (Prim2SF y) as [s|s| |s m e] eqn:E; try (eexists; reflexivity).
  - assert (is_zero y = true) by (apply is_zero_spec; eauto). congruence.
  - discriminate Hn.
Qed.

(** An infinity or NaN minus itself is NaN. *)
Lemma sub_self_not_finite (x : float) : is_finite x = false → x - x = nan.
Proof.
  intros Hf. apply Prim2SF_inj. rewrite sub_spec. change (Prim2SF nan) with S754_nan.
  destruct (Prim2SF x) as [s|s| |s m e] eqn:E; try (destruct s; reflexivity); try reflexivity.
  - rewrite shape_is_finite in Hf by (rewrite E; constructor). discriminate Hf.
  - pose proof (Prim2SF_valid x) as Hv. rewrite E in Hv.
    rewrite shape_is_finite in Hf by (rewrite E; constructor; exact Hv). discriminate Hf.
Qed.
End Binary64.

(** ** Running the monad *)

Lemma bind_eq {A B} (m : M A) (k : A → M B) (h : heap) :
  (m ≫= k) h =
  match m h with
  | (Ret a, h') => k a h'
  | (Abort p, h') => (Abort p, h')
  end.
Proof. reflexivity. Qed.

Lemma bind_ret {A B} (m : M A) (k : A → M B) (h h' : heap) (a : A) :
  m h = (Ret a, h') → (m ≫= k) h = k a h'.
Proof. intros H. rewrite bind_eq, H. reflexivity. Qed.

Lemma get_Value_run h l v :
  h !! l = Some v → get_Value (addr l) h = (Ret (Value (dual v)), h).
Proof. intros H. unfold get_Value. rewrite bind_eq. cbn. rewrite H. reflexivity. Qed.

Lemma get_Deriv_run h l v :
  h !! l = Some v → get_Deriv (addr l) h = (Ret (Deriv (dual v)), h).
Proof. intros H. unfold get_Deriv. rewrite bind_eq. cbn. rewrite H. reflexivity. Qed.

Lemma set_Value_run h l v a :
  h !! l = Some v → set_Value (addr l) a h = (Ret (), <[l := mkVar a (Deriv (dual v))]> h).
Proof.
  intros H. unfold set_Value. rewrite bind_eq. cbn. rewrite H. cbn.
  destruct (decide (l < length h)) as [|Hn]; [reflexivity|].
  apply lookup_lt_Some in H. lia.
Qed.

Lemma set_Deriv_run h l v a :
  h !! l = Some v → set_Deriv (addr l) a h = (Ret (), <[l := mkVar (Value (dual v)) a]> h).
Proof.
  intros H. unfold set_Deriv. rewrite bind_eq. cbn. rewrite H. cbn.
  destruct (decide (l < length h)) as [|Hn]; [reflexivity|].
  apply lookup_lt_Some in H. lia.
Qed.

(** Lookups after a write and after an allocation. *)

Lemma lookup_written (h : heap) l v w :
  h !! l = Some v → <[l := w]> h !! l = Some w.
Proof. intros H. apply list_lookup_insert_eq. eapply lookup_lt_Some, H. Qed.

Lemma lookup_other (h : heap) l l2 v w :
  l ≠ l2 → h !! l2 = Some v → <[l := w]> h !! l2 = Some v.
Proof. intros Hne H. rewrite list_lookup_insert_ne by exact Hne. exact H. Qed.

Lemma lookup_old (h k : heap) l v :
  h !! l = Some v → (h ++ k) !! l = Some v.
Proof. intros H. rewrite lookup_app_l by (eapply lookup_lt_Some, H). exact H. Qed.

Lemma lookup_fresh (h : heap) v : (h ++ [v]) !! length h = Some v.
Proof. apply list_lookup_middle. reflexivity. Qed.

Create HintDb heap discriminated.
#[local] Hint Resolve lookup_written lookup_other lookup_old lookup_fresh : heap.

(** One step of a computation whose next action reads or writes a field of
    an allocated Variable, or allocates. *)
Ltac run_step :=
  first
    [ erewrite (bind_ret (get_Value _)) by (apply get_Value_run; eauto with heap)
    | erewrite (bind_ret (get_Deriv _)) by (apply get_Deriv_run; eauto with heap)
    | erewrite (bind_ret (set_Value _ _)) by (apply set_Value_run; eauto with heap)
    | erewrite (bind_ret (set_Deriv _ _)) by (apply set_Deriv_run; eauto with heap)
    | erewrite (bind_ret (new _)) by reflexivity ];
  cbn [Value Deriv dual mkVar].

Ltac run := repeat run_step.

(** The in-place operators on allocated Variables, aliased or not: the
    receiver ends up holding the law's result on the two original pairs. *)

Lemma Variable_Add_run h l l2 x y :
  h !! l = Some {| dual := x |} → h !! l2 = Some {| dual := y |} →
  Variable_Add (addr l) (addr l2) h = (Ret (), <[l := {| dual := dual_add x y |}]> h).
Proof.
  intros Hx Hy. unfold Variable_Add.
  destruct (decide (l = l2)) as [->|Hne].
  - assert (y = x) as -> by congruence. run.
    erewrite set_Deriv_run by eauto with heap. rewrite list_insert_insert_eq. reflexivity.
  - run. erewrite set_Deriv_run by eauto with heap. rewrite list_insert_insert_eq. reflexivity.
Qed.

Lemma Variable_Sub_run h l l2 x y :
  h !! l = Some {| dual := x |} → h !! l2 = Some {| dual := y |} →
  Variable_Sub (addr l) (addr l2) h = (Ret (), <[l := {| dual := dual_sub x y |}]> h).
Proof.
  intros Hx Hy. unfold Variable_Sub.
  destruct (decide (l = l2)) as [->|Hne].
  - assert (y = x) as -> by congruence. run.
    erewrite set_Deriv_run by eauto with heap. rewrite list_insert_insert_eq. reflexivity.
  - run. erewrite set_Deriv_run by eauto with heap. rewrite list_insert_insert_eq. reflexivity.
Qed.

Lemma Variable_Mul_run h l l2 x y :
  h !! l = Some {| dual := x |} → h !! l2 = Some {| dual := y |} →
  Variable_Mul (addr l) (addr l2) h = (Ret (), <[l := {| dual := dual_mul x y |}]> h).
Proof.
  intros Hx Hy. unfold Variable_Mul.
  destruct (decide (l = l2)) as [->|Hne].
  - assert (y = x) as -> by congruence. run.
    erewrite set_Value_run by eauto with heap. rewrite list_insert_insert_eq. reflexivity.
  - run. erewrite set_Value_run by eauto with heap. rewrite list_insert_insert_eq. reflexivity.
Qed.

Lemma Variable_Div_zero h v l2 y :
  h !! l2 = Some {| dual := y |} → (Value y =? 0)%float = true →
  Variable_Div v (addr l2) h = (Abort DivisionByZero, h).
Proof.
  intros Hy Hz. unfold Variable_Div. run. rewrite Hz. reflexivity.
Qed.

Lemma Variable_Div_run h l l2 x y :
  h !! l = Some {| dual := x |} → h !! l2 = Some {| dual := y |} →
  (Value y =? 0)%float = false →
  Variable_Div (addr l) (addr l2) h =
  (Ret (), <[l := mkVar (Value x / Value y)
                   ((Deriv x * Value y - Value x * Deriv y) / (Value y * Value y))]> h).
Proof.
  intros Hx Hy Hz. unfold Variable_Div.
  destruct (decide (l = l2)) as [->|Hne].
  - assert (y = x) as -> by congruence. run. rewrite Hz. run.
    erewrite set_Value_run by eauto with heap. rewrite list_insert_insert_eq. reflexivity.
  - run. rewrite Hz. run.
    erewrite set_Value_run by eauto with heap. rewrite list_insert_insert_eq. reflexivity.
Qed.

(** The pure constructors and the elementary functions allocate their
    result and write nothing else. *)

Lemma Add_run h l1 l2 x y :
  h !! l1 = Some {| dual := x |} → h !! l2 = Some {| dual := y |} →
  Add (addr l1) (addr l2) h = (Ret (addr (length h)), h ++ [{| dual := dual_add x y |}]).
Proof. intros Hx Hy. unfold Add. run. reflexivity. Qed.

Lemma Mul_run h l1 l2 x y :
  h !! l1 = Some {| dual := x |} → h !! l2 = Some {| dual := y |} →
  Mul (addr l1) (addr l2) h = (Ret (addr (length h)), h ++ [{| dual := dual_mul x y |}]).
Proof. intros Hx Hy. unfold Mul. run. reflexivity. Qed.

Section ElementaryRuns.
Variable math : mathpkg.
Variables (h : heap) (l : nat) (x d : float).
Hypothesis Hv : h !! l = Some (mkVar x d).

Lemma Sin_run :
  Sin math (addr l) h = (Ret (addr (length h)), h ++ [mkVar (sin math x) (cos math x * d)]).
Proof. unfold Sin. run. reflexivity. Qed.

Lemma Cos_run :
  Cos math (addr l) h = (Ret (addr (length h)), h ++ [mkVar (cos math x) (- sin math x * d)]).
Proof. unfold Cos. run. reflexivity. Qed.

Lemma Exp_run :
  Exp math (addr l) h = (Ret (addr (length h)), h ++ [mkVar (exp math x) (exp math x * d)]).
Proof. unfold Exp. run. reflexivity. Qed.

Lemma Log_run :
  Log math (addr l) h =
  if (x <=? 0)%float then (Abort LogDomainError, h)
  else (Ret (addr (length h)), h ++ [mkVar (log math x) (d / x)]).
Proof. unfold Log. run. destruct (x <=? 0)%float; [reflexivity|]. run. reflexivity. Qed.

Lemma Pow_run (e : float) :
  Pow math (addr l) e h =
  if (x =? 0)%float && (e <=? 0)%float then (Abort PowDomainError, h)
  else (Ret (addr (length h)),
        h ++ [mkVar (pow math x (e - 1) * x) (e * pow math x (e - 1) * d)]).
Proof.
  unfold Pow. run. destruct ((x =? 0)%float && (e <=? 0)%float); [reflexivity|].
  run. reflexivity.
Qed.
End ElementaryRuns.

(** ** The loops of [Gradient] *)

Lemma index_run {A} (s : list A) i x (h : heap) :
  s !! i = Some x → index s i h = (Ret x, h).
Proof. intros H. unfold index. rewrite H. reflexivity. Qed.

Lemma assign_run {A} (s : list A) i x (h : heap) :
  i < length s → assign s i x h = (Ret (<[i := x]> s), h).
Proof. intros H. unfold assign. destruct (decide (i < length s)); [reflexivity|lia]. Qed.

Lemma seeds_length i point : length (seeds i point) = length point.
Proof. unfold seeds. apply length_imap. Qed.

Lemma seeds_lookup i point j x :
  point !! j = Some x →
  seeds i point !! j = Some (if decide (i = j) then mkVar x 1 else mkVar x 0).
Proof. intros H. unfold seeds. rewrite list_lookup_imap, H. reflexivity. Qed.

(** The inner loop, from index [k] on. *)
Lemma seed_loop i inputs (h : heap) m : ∀ k,
  k + m = length inputs →
  for_range (seq k m)
    (λ j vars,
       x ← index inputs j;
       p ← (if decide (i = j) then NewInput x else NewScalar x);
       assign vars j p)
    ((addr <$> seq (length h) k) ++ replicate m nil)
    (h ++ take k (seeds i inputs)) =
  (Ret (addr <$> seq (length h) (length inputs)), h ++ seeds i inputs).
Proof.
  induction m as [|m IH]; intros k Hk.
  - cbn. rewrite Nat.add_0_r in Hk. subst k. rewrite app_nil_r.
    rewrite firstn_all2 by (rewrite seeds_length; lia). reflexivity.
  - destruct (lookup_lt_is_Some_2 inputs k ltac:(lia)) as [x Hx].
    cbn [seq for_range].
    erewrite bind_ret.
    2:{ erewrite (bind_ret (index _ _)) by (apply index_run; exact Hx).
        erewrite bind_ret.
        2:{ instantiate (1 := h ++ take (S k) (seeds i inputs)).
            instantiate (1 := addr (length h + k)).
            rewrite (take_S_r _ _ _ (seeds_lookup i inputs k x Hx)).
            rewrite app_assoc.
            assert (Hl : length (h ++ take k (seeds i inputs)) = length h + k).
            { rewrite length_app, length_take, seeds_length. lia. }
            destruct (decide (i = k)); unfold NewInput, NewScalar, new; rewrite Hl; reflexivity. }
        apply assign_run. rewrite length_app, length_fmap, length_seq, length_replicate. lia. }
    replace (<[k:=addr (length h + k)]> ((addr <$> seq (length h) k) ++ replicate (S m) nil))
      with ((addr <$> seq (length h) (S k)) ++ replicate m nil).
    + apply IH. lia.
    + rewrite seq_S, fmap_app, <- app_assoc. cbn [fmap list_fmap app replicate].
      rewrite insert_app_r_alt by (rewrite length_fmap, length_seq; lia).
      rewrite length_fmap, length_seq, Nat.sub_diag. reflexivity.
Qed.

Lemma seed_vars_run i inputs (h : heap) :
  seed_vars i inputs (replicate (length inputs) nil) h =
  (Ret (addr <$> seq (length h) (length inputs)), h ++ seeds i inputs).
Proof.
  unfold seed_vars. rewrite length_replicate.
  pose proof (seed_loop i inputs h (length inputs) 0 ltac:(lia)) as H.
  cbn [seq fmap list_fmap app take] in H. rewrite app_nil_r in H. exact H.
Qed.

Lemma partial_derivative_body f inputs i (h : heap) (grad : list float) :
  (vars ← seed_vars i inputs (replicate (length inputs) nil);
   result ← f vars;
   d ← Variable_Deriv result;
   assign grad i d) h =
  (d ← partial_derivative f inputs i; assign grad i d) h.
Proof.
  rewrite (bind_ret _ _ _ _ _ (seed_vars_run i inputs h)).
  rewrite (bind_eq (partial_derivative f inputs i)). unfold partial_derivative.
  rewrite !bind_eq.
  destruct (f _ _) as [[r|p] h1]; [|reflexivity].
  rewrite !bind_eq.
  destruct (Variable_Deriv r h1) as [[d|p] h2]; reflexivity.
Qed.

(** The outer loop, from dimension [k] on, with the entries [ds] already
    written. *)
Lemma gradient_loop f inputs m : ∀ k (ds : list float) (h : heap),
  length ds = k →
  for_range (seq k m)
    (λ i grad,
       vars ← seed_vars i inputs (replicate (length inputs) nil);
       result ← f vars;
       d ← Variable_Deriv result;
       assign grad i d)
    (ds ++ replicate m 0%float) h =
  (ds' ← gradient_by_dimension f inputs (seq k m); mret (ds ++ ds')) h.
Proof.
  induction m as [|m IH]; intros k ds h Hk.
  - reflexivity.
  - cbn [seq for_range gradient_by_dimension]. cbv zeta.
    rewrite bind_eq, partial_derivative_body. rewrite !bind_eq.
    destruct (partial_derivative f inputs k h) as [[d|p] h1]; [|reflexivity].
    rewrite assign_run by (rewrite length_app, length_replicate; lia).
    replace (<[k:=d]> (ds ++ replicate (S m) 0%float)) with ((ds ++ [d]) ++ replicate m 0%float).
    2:{ rewrite <- app_assoc. cbn [app replicate].
        rewrite insert_app_r_alt by lia. rewrite Hk, Nat.sub_diag. reflexivity. }
    rewrite IH by (rewrite length_app; cbn; lia).
    rewrite !bind_eq.
    destruct (gradient_by_dimension f inputs (seq (S k) m) h1) as [[ds'|p] h2]; [|reflexivity].
    unfold mret, M_ret. rewrite <- app_assoc. reflexivity.
Qed.

Lemma Gradient_by_dimension f inputs (h : heap) :
  Gradient f inputs h = gradient_by_dimension f inputs (seq 0 (length inputs)) h.
Proof.
  unfold Gradient. cbv zeta.
  change (replicate (length inputs) 0%float) with ([] ++ replicate (length inputs) 0%float).
  rewrite (gradient_loop f inputs (length inputs) 0 [] h eq_refl).
  rewrite bind_eq.
  destruct (gradient_by_dimension f inputs (seq 0 (length inputs)) h) as [[ds|p] h1];
    reflexivity.
Qed.

Lemma gradient_by_dimension_length f point dims : ∀ h : heap,
  match fst (gradient_by_dimension f point dims h) with
  | Ret grad => length grad = length dims
  | Abort _ => True
  end.
Proof.
  induction dims as [|i dims IH]; intros h.
  - reflexivity.
  - cbn [gradient_by_dimension]. rewrite bind_eq.
    destruct (partial_derivative f point i h) as [[d|p] h1]; [|exact I].
    rewrite bind_eq. specialize (IH h1).
    destruct (gradient_by_dimension f point dims h1) as [[ds|p] h2]; [|exact I].
    cbn in *. lia.
Qed.

Lemma Variable_Deriv_run h l v :
  h !! l = Some v → Variable_Deriv (addr l) h = (Ret (Deriv (dual v)), h).
Proof. apply get_Deriv_run. Qed.

Lemma product01_gradient (h : heap) :
  fst (Gradient product01 [2; 3]%float h) = Ret [3; 2]%float.
Proof.
  rewrite Gradient_by_dimension. cbn [length seq gradient_by_dimension].
  assert (Hpass : ∀ (i : nat) (k : heap) (a b : float),
    seeds i [2; 3]%float = [mkVar 2 a; mkVar 3 b] →
    partial_derivative product01 [2; 3]%float i k =
    (Ret (a * 3 + 2 * b)%float, k ++ [mkVar 2 a; mkVar 3 b; mkVar 6 (a * 3 + 2 * b)])).
  { intros i k a b Hs. unfold partial_derivative, product01. rewrite Hs.
    cbn [length seq fmap list_fmap].
    assert (H0 : (k ++ [mkVar 2 a; mkVar 3 b]) !! length k = Some (mkVar 2 a)).
    { apply list_lookup_middle. reflexivity. }
    assert (H1 : (k ++ [mkVar 2 a; mkVar 3 b]) !! S (length k) = Some (mkVar 3 b)).
    { rewrite (cons_middle (mkVar 2 a) k [mkVar 3 b]), app_assoc.
      apply list_lookup_middle. rewrite length_app. cbn. lia. }
    erewrite bind_ret.
    2:{ erewrite (bind_ret (index _ 0)) by reflexivity.
        erewrite (bind_ret (index _ 1)) by reflexivity.
        apply (Mul_run _ _ _ _ _ H0 H1). }
    erewrite Variable_Deriv_run by apply lookup_fresh.
    rewrite <- app_assoc. reflexivity. }
  rewrite bind_eq, (Hpass 0 h 1%float 0%float eq_refl).
  rewrite bind_eq, bind_eq, (Hpass 1 _ 0%float 1%float eq_refl).
  reflexivity.
Qed.

Lemma get_Deriv_heap p (h h' : heap) o : get_Deriv p h = (o, h') → h' = h.
Proof.
  unfold get_Deriv. rewrite bind_eq. unfold load.
  destruct p as [|l]; [intros [= _ <-]; reflexivity|].
  destruct (h !! l); intros [= _ <-]; reflexivity.
Qed.

Lemma gradient_by_dimension_entries f point dims : ∀ (h h' : heap) grad,
  gradient_by_dimension f point dims h = (Ret grad, h') →
  ∀ j d, grad !! j = Some d →
  ∃ i h0 r h1,
    dims !! j = Some i ∧
    f (addr <$> seq (length h0) (length point)) (h0 ++ seeds i point) = (Ret r, h1) ∧
    Variable_Deriv r h1 = (Ret d, h1).
Proof.
  induction dims as [|i dims IH]; intros h h' grad Hrun j d Hj.
  - cbn in Hrun. injection Hrun as <- _. discriminate Hj.
  - cbn [gradient_by_dimension] in Hrun. rewrite bind_eq in Hrun.
    destruct (partial_derivative f point i h) as [[d0|p] h1] eqn:Hpass; [|discriminate].
    rewrite bind_eq in Hrun.
    destruct (gradient_by_dimension f point dims h1) as [[ds|p] h2] eqn:Hrest; [|discriminate].
    injection Hrun as <- _.
    destruct j as [|j].
    + injection Hj as ->.
      unfold partial_derivative in Hpass. rewrite bind_eq in Hpass.
      destruct (f _ _) as [[r|p] h3] eqn:Hf; [|discriminate].
      pose proof (get_Deriv_heap _ _ _ _ Hpass) as ->.
      exists i, h, r, h3. split; [reflexivity|]. split; [exact Hf|exact Hpass].
    + destruct (IH _ _ _ Hrest j d Hj) as (i' & h0 & r & h3 & Hd & Hf & Hr).
      exists i', h0, r, h3. split; [exact Hd|]. split; [exact Hf|exact Hr].
Qed.

(** ** The start of [main] *)

Lemma main_z_run (math : mathpkg) (h : heap) :
  fst (main_z math h) = Ret (6 + sin math 2, 5 + cos math 2)%float.
Proof.
  unfold main_z, NewInput.
  erewrite (bind_ret (new _)) by reflexivity.
  erewrite (bind_ret (new _)) by reflexivity.
  set (h2 := (h ++ [mkVar 2 1]) ++ [mkVar 3 1]).
  assert (Hx : h2 !! length h = Some (mkVar 2 1)).
  { unfold h2. apply lookup_old, lookup_fresh. }
  assert (Hy : h2 !! length (h ++ [mkVar 2 1]) = Some (mkVar 3 1)).
  { unfold h2. apply lookup_fresh. }
  erewrite bind_ret by (apply (Mul_run h2 _ _ _ _ Hx Hy)).
  erewrite bind_ret by (apply Sin_run, lookup_old, Hx).
  set (h3 := h2 ++ _). set (h4 := h3 ++ _).
  assert (H1 : h4 !! length h2 = Some {| dual := dual_mul {| Value := 2; Deriv := 1 |} {| Value := 3; Deriv := 1 |} |}).
  { unfold h4, h3. apply lookup_old, lookup_fresh. }
  assert (H2 : h4 !! length h3 = Some (mkVar (sin math 2) (cos math 2 * 1))).
  { unfold h4. apply lookup_fresh. }
  erewrite bind_ret by (apply (Add_run h4 _ _ _ _ H1 H2)).
  unfold Variable_Value, Variable_Deriv.
  erewrite (bind_ret (get_Value _)) by (apply get_Value_run, lookup_fresh).
  erewrite (bind_ret (get_Deriv _)) by (apply get_Deriv_run, lookup_fresh).
  cbn. rewrite Binary64.mul_1_r. reflexivity.
Qed.

(** ** A function that always returns a live Variable *)

Lemma gradient_by_dimension_returns f point dims :
  (∀ vars (k : heap), ∃ r k' v, f vars k = (Ret (addr r), k') ∧ k' !! r = Some v) →
  ∀ h : heap, ∃ grad h', gradient_by_dimension f point dims h = (Ret grad, h').
Proof.
  intros Hf. induction dims as [|i dims IH]; intros h.
  - exists [], h. reflexivity.
  - cbn [gradient_by_dimension]. rewrite bind_eq. unfold partial_derivative at 1.
    destruct (Hf (addr <$> seq (length h) (length point)) (h ++ seeds i point))
      as (r & k' & v & Hrun & Hr).
    rewrite bind_eq, Hrun, (Variable_Deriv_run k' r v Hr).
    destruct (IH k') as (ds & h' & Hrest).
    rewrite bind_eq, Hrest. eexists _, _. reflexivity.
Qed.

(** * The claims *)

(** C1: [Gradient f inputs] is one pass per dimension [i] of [inputs], in
    order: [f] is run on freshly allocated Variables, the one of dimension [i]
    with tangent 1 and the others with tangent 0 ([seeds]), and the tangent of
    its result is entry [i]. When it returns, the vector has the length of
    [inputs] and every entry is such a tangent; it returns whenever [f] always
    returns a live Variable. In particular the gradient of
    [f(v) = Mul(v[0], v[1])] at [2, 3] is [3, 2]. *)
Theorem Gradient_one_pass_per_dimension (f : list ptr → M ptr) (inputs : list float) (h : heap) :
  Gradient f inputs h = gradient_by_dimension f inputs (seq 0 (length inputs)) h ∧
  match Gradient f inputs h with
  | (Ret grad, _) =>
      length grad = length inputs ∧
      ∀ i d, grad !! i = Some d →
        ∃ h0 r h1,
          f (addr <$> seq (length h0) (length inputs)) (h0 ++ seeds i inputs) = (Ret r, h1) ∧
          Variable_Deriv r h1 = (Ret d, h1)
  | (Abort _, _) => True
  end ∧
  ((∀ vars (k : heap), ∃ r k' v, f vars k = (Ret (addr r), k') ∧ k' !! r = Some v) →
   ∃ grad h', Gradient f inputs h = (Ret grad, h')) ∧
  fst (Gradient product01 [2; 3]%float h) = Ret [3; 2]%float.
Proof.
  split; [apply Gradient_by_dimension|]. split; [|split; [|apply product01_gradient]].
  - rewrite Gradient_by_dimension.
    pose proof (gradient_by_dimension_length f inputs (seq 0 (length inputs)) h) as Hlen.
    destruct (gradient_by_dimension f inputs (seq 0 (length inputs)) h)
      as [[grad|p] h'] eqn:Hrun; [|exact I].
    cbn [fst] in Hlen. rewrite length_seq in Hlen. split; [exact Hlen|].
    intros i d Hi.
    destruct (gradient_by_dimension_entries _ _ _ _ _ _ Hrun i d Hi)
      as (i' & h0 & r & h1 & Hd & Hf & Hr).
    apply lookup_seq in Hd as [-> _]. exists h0, r, h1. split; [exact Hf|exact Hr].
  - intros Hf. rewrite Gradient_by_dimension.
    apply gradient_by_dimension_returns, Hf.
Qed.

Lemma Gradient_one_pass_per_dimension_witness :
  fst (Gradient product01 [2; 3]%float []) = Ret [3; 2]%float ∧
  ∃ grad h', Gradient (λ _, NewScalar 1) [2; 3]%float [] = (Ret grad, h').
Proof.
  split.
  - exact (proj2 (proj2 (proj2 (Gradient_one_pass_per_dimension product01 [2; 3]%float [])))).
  - apply (proj1 (proj2 (proj2
      (Gradient_one_pass_per_dimension (λ _, NewScalar 1) [2; 3]%float [])))).
    intros vars k. exists (length k), (k ++ [mkVar 1 0]), (mkVar 1 0).
    split; [reflexivity|apply lookup_fresh].
Defined.

(** C2: for Variables holding [(a, a')] and [(b, b')], [v.Div(v2)] panics
    with "division by zero" exactly when [b == 0], and when [b == 0] is false
    it leaves [(a/b, (a'*b - a*b') / (b*b))] in [v]. *)
Theorem Variable_Div_quotient_rule (h : heap) (l l2 : nat) (a a' b b' : float) :
  h !! l = Some (mkVar a a') → h !! l2 = Some (mkVar b b') →
  (fst (Variable_Div (addr l) (addr l2) h) = Abort DivisionByZero ↔ (b =? 0)%float = true) ∧
  ((b =? 0)%float = false →
   Variable_Div (addr l) (addr l2) h =
   (Ret (), <[l := mkVar (a / b) ((a' * b - a * b') / (b * b))]> h)).
Proof.
  intros Hv Hv2. destruct (b =? 0)%float eqn:Hb.
  - rewrite (Variable_Div_zero h (addr l) l2 _ Hv2 Hb). split; [|discriminate].
    split; reflexivity.
  - rewrite (Variable_Div_run h l l2 _ _ Hv Hv2 Hb). split; [|reflexivity].
    split; discriminate.
Qed.

Lemma Variable_Div_quotient_rule_witness :
  (fst (Variable_Div (addr 0) (addr 1) [mkVar 6 1; mkVar 3 0]) = Abort DivisionByZero
   ↔ (3 =? 0)%float = true) ∧
  Variable_Div (addr 0) (addr 1) [mkVar 6 1; mkVar 3 0] =
  (Ret (), <[0 := mkVar (6 / 3) ((1 * 3 - 6 * 0) / (3 * 3))]> [mkVar 6 1; mkVar 3 0]).
Proof.
  destruct (Variable_Div_quotient_rule [mkVar 6 1; mkVar 3 0] 0 1 6 1 3 0 eq_refl eq_refl)
    as [Hiff Hrun].
  split; [exact Hiff|apply Hrun; reflexivity].
Defined.

(** C3, at the input where the code departs from it: with a zero base and
    the exponent 0.5 the guard of [Pow] lets the call through, [math.Pow(0,
    -0.5)] is [+Inf], and the value returned is [+Inf * 0 = NaN], not
    [0^0.5 = 0]. *)
Theorem Pow_zero_base_fractional (math : mathpkg) (h : heap) (l : nat) (d : float) :
  h !! l = Some (mkVar 0 d) →
  math_Pow math 0 (-0.5) = infinity →
  math_Pow math 0 0.5 = 0%float →
  Pow math (addr l) 0.5 h = (Ret (addr (length h)), h ++ [mkVar nan (0.5 * infinity * d)]) ∧
  nan ≠ pow math 0 0.5.
Proof.
  intros Hv Hpow Hzero. split.
  - rewrite (Pow_run math h l 0 d Hv).
    change ((0 =? 0)%float && (0.5 <=? 0)%float) with false. cbv iota.
    unfold pow. change (0.5 - 1)%float with (-0.5)%float. rewrite Hpow. reflexivity.
  - unfold pow. rewrite Hzero. discriminate.
Qed.

Lemma Pow_zero_base_fractional_witness :
  Pow math_table (addr 0) 0.5 [mkVar 0 1] =
    (Ret (addr 1), [mkVar 0 1] ++ [mkVar nan (0.5 * infinity * 1)]) ∧
  nan ≠ pow math_table 0 0.5.
Proof. apply (Pow_zero_base_fractional math_table [mkVar 0 1] 0 1); reflexivity. Defined.



(** C5: for Variables holding [(a, a')] and [(b, b')], the package-level
    [Add] returns a newly allocated Variable holding [(a+b, a'+b')] and the
    package-level [Mul] one holding [(a*b, a'*b + a*b')]. *)
Theorem Add_Mul_new_variable (h : heap) (l1 l2 : nat) (a a' b b' : float) :
  h !! l1 = Some (mkVar a a') → h !! l2 = Some (mkVar b b') →
  Add (addr l1) (addr l2) h = (Ret (addr (length h)), h ++ [mkVar (a + b) (a' + b')]) ∧
  Mul (addr l1) (addr l2) h = (Ret (addr (length h)), h ++ [mkVar (a * b) (a' * b + a * b')]).
Proof.
  intros H1 H2. split.
  - apply (Add_run h l1 l2 _ _ H1 H2).
  - apply (Mul_run h l1 l2 _ _ H1 H2).
Qed.

Lemma Add_Mul_new_variable_witness :
  Add (addr 0) (addr 1) [mkVar 2 1; mkVar 3 1] =
    (Ret (addr 2), [mkVar 2 1; mkVar 3 1] ++ [mkVar (2 + 3) (1 + 1)]) ∧
  Mul (addr 0) (addr 1) [mkVar 2 1; mkVar 3 1] =
    (Ret (addr 2), [mkVar 2 1; mkVar 3 1] ++ [mkVar (2 * 3) (1 * 3 + 2 * 1)]).
Proof. apply (Add_Mul_new_variable [mkVar 2 1; mkVar 3 1] 0 1 2 1 3 1); reflexivity. Defined.

(** C6: after the pure [Add] or [Mul] of two Variables, or [Sin], [Cos],
    [Exp], [Log] or [Pow] of either, both Variables hold what they held
    before the call, whether the call returned or panicked. *)
Theorem pure_calls_keep_operands (math : mathpkg) (h : heap) (l1 l2 : nat) (x1 x2 : Var)
    (e : float) :
  h !! l1 = Some x1 → h !! l2 = Some x2 →
  Forall (λ call : M ptr,
            snd (call h) !! l1 = Some x1 ∧ snd (call h) !! l2 = Some x2)
         (pure_calls math (addr l1) (addr l2) e).
Proof.
  intros H1 H2. destruct x1 as [[a a']], x2 as [[b b']].
  assert (Hkeep : ∀ k : heap,
    (h ++ k) !! l1 = Some (mkVar a a') ∧ (h ++ k) !! l2 = Some (mkVar b b')).
  { intros k. split; apply lookup_old; assumption. }
  assert (Hsame : h !! l1 = Some (mkVar a a') ∧ h !! l2 = Some (mkVar b b'))
    by (split; assumption).
  unfold pure_calls. repeat apply Forall_cons_2; [..|apply Forall_nil_2].
  - rewrite (Add_run h l1 l2 _ _ H1 H2). apply Hkeep.
  - rewrite (Mul_run h l1 l2 _ _ H1 H2). apply Hkeep.
  - rewrite (Sin_run math h l1 a a' H1). apply Hkeep.
  - rewrite (Cos_run math h l1 a a' H1). apply Hkeep.
  - rewrite (Exp_run math h l1 a a' H1). apply Hkeep.
  - rewrite (Log_run math h l1 a a' H1). destruct (a <=? 0)%float; [exact Hsame|apply Hkeep].
  - rewrite (Pow_run math h l1 a a' H1).
    destruct ((a =? 0)%float && (e <=? 0)%float); [exact Hsame|apply Hkeep].
  - rewrite (Sin_run math h l2 b b' H2). apply Hkeep.
  - rewrite (Cos_run math h l2 b b' H2). apply Hkeep.
  - rewrite (Exp_run math h l2 b b' H2). apply Hkeep.
  - rewrite (Log_run math h l2 b b' H2). destruct (b <=? 0)%float; [exact Hsame|apply Hkeep].
  - rewrite (Pow_run math h l2 b b' H2).
    destruct ((b =? 0)%float && (e <=? 0)%float); [exact Hsame|apply Hkeep].
Qed.

Lemma pure_calls_keep_operands_witness :
  Forall (λ call : M ptr,
            snd (call [mkVar 2 1; mkVar 0 1]) !! 0 = Some (mkVar 2 1) ∧
            snd (call [mkVar 2 1; mkVar 0 1]) !! 1 = Some (mkVar 0 1))
         (pure_calls math_table (addr 0) (addr 1) (-1)).
Proof.
  apply (pure_calls_keep_operands math_table [mkVar 2 1; mkVar 0 1] 0 1 _ _ (-1));
    reflexivity.
Defined.




(** C8: with [x = NewInput(2)] and [y = NewInput(3)], [z = Add(Mul(x, y),
    Sin(x))] has the value [6 + sin 2] and the tangent [5 + cos 2]; when the
    library's [Sin(2)] and [Cos(2)] are within 8 units in the last place of
    the nearest floats to sin 2 and cos 2, these are 6.909297 and 4.583853 to
    six decimals. *)
Theorem main_z_six_decimals (math : mathpkg) (h : heap) :
  within_ulps 8 sin_2 (math_Sin math 2) →
  within_ulps 8 cos_2 (math_Cos math 2) →
  ∃ value deriv,
    fst (main_z math h) = Ret (value, deriv) ∧
    value = (6 + sin math 2)%float ∧ six_decimals expected_value value ∧
    deriv = (5 + cos math 2)%float ∧ six_decimals expected_deriv deriv.
Proof.
  intros Hs Hc. exists (6 + sin math 2)%float, (5 + cos math 2)%float.
  split; [apply main_z_run|]. unfold sin, cos, six_decimals.
  repeat split.
  - unfold within_ulps in Hs. cbn [floats_above floats_below app In] in Hs.
    repeat (destruct Hs as [Hs|Hs]; [rewrite <- Hs; reflexivity|]). destruct Hs.
  - unfold within_ulps in Hc. cbn [floats_above floats_below app In] in Hc.
    repeat (destruct Hc as [Hc|Hc]; [rewrite <- Hc; reflexivity|]). destruct Hc.
Qed.

Lemma main_z_six_decimals_witness :
  ∃ value deriv,
    fst (main_z math_table []) = Ret (value, deriv) ∧
    value = (6 + sin math_table 2)%float ∧ six_decimals expected_value value ∧
    deriv = (5 + cos math_table 2)%float ∧ six_decimals expected_deriv deriv.
Proof. apply (main_z_six_decimals math_table []); left; reflexivity. Defined.

(** C9: when the Variable [v2] holds a value equal to 0, [v.Div(v2)] panics
    with "division by zero" and the heap, the Variable [v] included, is as it
    was before the call. *)
Theorem Variable_Div_by_zero_writes_nothing (h : heap) (v : ptr) (l2 : nat) (b b' : float) :
  h !! l2 = Some (mkVar b b') → (b =? 0)%float = true →
  Variable_Div v (addr l2) h = (Abort DivisionByZero, h).
Proof. intros Hv2 Hb. apply (Variable_Div_zero h v l2 _ Hv2 Hb). Qed.

Lemma Variable_Div_by_zero_writes_nothing_witness :
  Variable_Div (addr 0) (addr 1) [mkVar 1 1; mkVar 0 0] =
  (Abort DivisionByZero, [mkVar 1 1; mkVar 0 0]).
Proof.
  apply (Variable_Div_by_zero_writes_nothing [mkVar 1 1; mkVar 0 0] (addr 0) 1 0 0);
    reflexivity.
Defined.




(** * Further properties of the package *)

Lemma bind_abort {A B} (m : M A) (k : A → M B) (h h' : heap) (p : panic) :
  m h = (Abort p, h') → (m ≫= k) h = (Abort p, h').
Proof. intros H. rewrite bind_eq, H. reflexivity. Qed.

Lemma allocated_dec (h : heap) (p : ptr) : allocated h p ∨ ¬ allocated h p.
Proof.
  destruct p as [|l]; [right; intros (l & x & [=] & _)|].
  destruct (h !! l) as [x|] eqn:E; [left; exists l, x; split; [reflexivity|exact E]|].
  right. intros (l' & x & [= <-] & Hx). congruence.
Qed.

Lemma load_fail (h : heap) (p : ptr) :
  ¬ allocated h p → load p h = (Abort NilDereference, h).
Proof.
  intros Hn. destruct p as [|l]; [reflexivity|]. unfold load.
  destruct (h !! l) as [x|] eqn:E; [|reflexivity].
  exfalso. apply Hn. exists l, x. split; [reflexivity|exact E].
Qed.

Lemma get_Value_fail (h : heap) (p : ptr) :
  ¬ allocated h p → get_Value p h = (Abort NilDereference, h).
Proof. intros Hn. unfold get_Value. apply bind_abort, load_fail, Hn. Qed.

Lemma get_Deriv_fail (h : heap) (p : ptr) :
  ¬ allocated h p → get_Deriv p h = (Abort NilDereference, h).
Proof. intros Hn. unfold get_Deriv. apply bind_abort, load_fail, Hn. Qed.

Lemma allocated_addr (h : heap) (l : nat) (x : Var) : h !! l = Some x → allocated h (addr l).
Proof. intros H. exists l, x. split; [reflexivity|exact H]. Qed.

(** X1: [NewVariable(a, b)], [NewScalar(a)] and [NewInput(a)] return a
    Variable whose [Value()] and [Deriv()] read back [(a, b)], [(a, 0)] and
    [(a, 1)]; the Variable is newly allocated, at an address no live Variable
    has, and the existing Variables keep what they hold. *)
Theorem constructors_round_trip (a b : float) (h : heap) :
  fst ((v ← NewVariable a b; x ← Variable_Value v; d ← Variable_Deriv v; mret (x, d)) h)
    = Ret (a, b) ∧
  fst ((v ← NewScalar a; x ← Variable_Value v; d ← Variable_Deriv v; mret (x, d)) h)
    = Ret (a, 0%float) ∧
  fst ((v ← NewInput a; x ← Variable_Value v; d ← Variable_Deriv v; mret (x, d)) h)
    = Ret (a, 1%float) ∧
  Forall (λ new : M ptr,
            ∃ l, fst (new h) = Ret (addr l) ∧ ¬ allocated h (addr l) ∧
                 allocated (snd (new h)) (addr l) ∧
                 ∀ l' x, h !! l' = Some x → snd (new h) !! l' = Some x)
         [NewVariable a b; NewScalar a; NewInput a].
Proof.
  assert (Hread : ∀ c d : float,
    fst ((v ← new (mkVar c d); x ← Variable_Value v; d ← Variable_Deriv v; mret (x, d)) h)
    = Ret (c, d)).
  { intros c d. erewrite (bind_ret (new _)) by reflexivity.
    unfold Variable_Value, Variable_Deriv.
    erewrite (bind_ret (get_Value _)) by (apply get_Value_run, lookup_fresh).
    erewrite (bind_ret (get_Deriv _)) by (apply get_Deriv_run, lookup_fresh).
    reflexivity. }
  assert (Hnew : ∀ x : Var,
    ∃ l, fst (new x h) = Ret (addr l) ∧ ¬ allocated h (addr l) ∧
         allocated (snd (new x h)) (addr l) ∧
         ∀ l' y, h !! l' = Some y → snd (new x h) !! l' = Some y).
  { intros x. exists (length h). split; [reflexivity|]. split; [|split].
    - intros (l & y & [= <-] & Hy). apply lookup_lt_Some in Hy. lia.
    - eapply allocated_addr, lookup_fresh.
    - intros l' y Hy. apply lookup_old, Hy. }
  split; [apply Hread|]. split; [apply Hread|]. split; [apply Hread|].
  repeat apply Forall_cons_2; [apply Hnew..|apply Forall_nil_2].
Qed.

Lemma length_written (h : heap) (l : nat) (x : Var) : length (<[l := x]> h) = length h.
Proof. apply length_insert. Qed.

(** X2: an in-place operator either returns, and then both operands were
    allocated Variables and no Variable was allocated or freed, or panics,
    and then nothing at all was written: the heap is the one before the call,
    and the panic is a nil dereference or the division by zero. The operands
    are any pointers, [nil] included. *)
Theorem in_place_all_or_nothing (v v2 : ptr) (h : heap) :
  Forall (λ op : ptr → ptr → M unit,
            match op v v2 h with
            | (Ret _, h') => allocated h v ∧ allocated h v2 ∧ length h' = length h
            | (Abort p, h') => h' = h ∧ (p = NilDereference ∨ p = DivisionByZero)
            end)
         in_place_operators.
Proof.
  unfold in_place_operators.
  destruct (allocated_dec h v2) as [(l2 & [y] & -> & Hy)|Hn2].
  - destruct (allocated_dec h v) as [(l & [x] & -> & Hx)|Hn].
    + pose proof (allocated_addr _ _ _ Hx) as Ax. pose proof (allocated_addr _ _ _ Hy) as Ay.
      repeat apply Forall_cons_2; [..|apply Forall_nil_2].
      * rewrite (Variable_Add_run h l l2 _ _ Hx Hy), length_written. auto.
      * rewrite (Variable_Sub_run h l l2 _ _ Hx Hy), length_written. auto.
      * rewrite (Variable_Mul_run h l l2 _ _ Hx Hy), length_written. auto.
      * destruct (Value y =? 0)%float eqn:Hz.
        -- rewrite (Variable_Div_zero h (addr l) l2 _ Hy Hz). auto.
        -- rewrite (Variable_Div_run h l l2 _ _ Hx Hy Hz), length_written. auto.
    + repeat apply Forall_cons_2; [..|apply Forall_nil_2].
      * unfold Variable_Add. rewrite (bind_abort _ _ _ _ _ (get_Value_fail h v Hn)). auto.
      * unfold Variable_Sub. rewrite (bind_abort _ _ _ _ _ (get_Value_fail h v Hn)). auto.
      * unfold Variable_Mul. rewrite (bind_abort _ _ _ _ _ (get_Deriv_fail h v Hn)). auto.
      * unfold Variable_Div.
        erewrite (bind_ret (get_Value _)) by (apply get_Value_run, Hy).
        cbn [Value dual]. destruct (Value y =? 0)%float; [cbn; auto|].
        rewrite (bind_abort _ _ _ _ _ (get_Deriv_fail h v Hn)). auto.
  - repeat apply Forall_cons_2; [..|apply Forall_nil_2].
    + unfold Variable_Add. destruct (allocated_dec h v) as [(l & x & -> & Hx)|Hn].
      * erewrite (bind_ret (get_Value _)) by (apply get_Value_run, Hx).
        rewrite (bind_abort _ _ _ _ _ (get_Value_fail h v2 Hn2)). auto.
      * rewrite (bind_abort _ _ _ _ _ (get_Value_fail h v Hn)). auto.
    + unfold Variable_Sub. destruct (allocated_dec h v) as [(l & x & -> & Hx)|Hn].
      * erewrite (bind_ret (get_Value _)) by (apply get_Value_run, Hx).
        rewrite (bind_abort _ _ _ _ _ (get_Value_fail h v2 Hn2)). auto.
      * rewrite (bind_abort _ _ _ _ _ (get_Value_fail h v Hn)). auto.
    + unfold Variable_Mul. destruct (allocated_dec h v) as [(l & x & -> & Hx)|Hn].
      * erewrite (bind_ret (get_Deriv _)) by (apply get_Deriv_run, Hx).
        rewrite (bind_abort _ _ _ _ _ (get_Value_fail h v2 Hn2)). auto.
      * rewrite (bind_abort _ _ _ _ _ (get_Deriv_fail h v Hn)). auto.
    + unfold Variable_Div. rewrite (bind_abort _ _ _ _ _ (get_Value_fail h v2 Hn2)). auto.
Qed.

(** X3: the in-place and the pure form of an operation agree: after
    [v.Add(v2)] the receiver holds exactly what the Variable returned by
    [Add(v, v2)] holds, and likewise for [v.Mul(v2)] and [Mul(v, v2)], the
    operands being the same Variable or not. *)
Theorem in_place_agrees_with_pure (h : heap) (l l2 : nat) (x y : DualNumber) :
  h !! l = Some {| dual := x |} → h !! l2 = Some {| dual := y |} →
  ∃ s p : Var,
    snd (Variable_Add (addr l) (addr l2) h) !! l = Some s ∧
    Add (addr l) (addr l2) h = (Ret (addr (length h)), h ++ [s]) ∧
    snd (Variable_Mul (addr l) (addr l2) h) !! l = Some p ∧
    Mul (addr l) (addr l2) h = (Ret (addr (length h)), h ++ [p]).
Proof.
  intros Hx Hy. exists {| dual := dual_add x y |}, {| dual := dual_mul x y |}.
  rewrite (Variable_Add_run h l l2 _ _ Hx Hy), (Variable_Mul_run h l l2 _ _ Hx Hy).
  cbn [snd]. split; [eapply lookup_written, Hx|]. split; [apply (Add_run h l l2 _ _ Hx Hy)|].
  split; [eapply lookup_written, Hx|apply (Mul_run h l l2 _ _ Hx Hy)].
Qed.

Lemma in_place_agrees_with_pure_witness :
  ∃ s p : Var,
    snd (Variable_Add (addr 0) (addr 1) [mkVar 2 1; mkVar 3 1]) !! 0 = Some s ∧
    Add (addr 0) (addr 1) [mkVar 2 1; mkVar 3 1] =
      (Ret (addr 2), [mkVar 2 1; mkVar 3 1] ++ [s]) ∧
    snd (Variable_Mul (addr 0) (addr 1) [mkVar 2 1; mkVar 3 1]) !! 0 = Some p ∧
    Mul (addr 0) (addr 1) [mkVar 2 1; mkVar 3 1] =
      (Ret (addr 2), [mkVar 2 1; mkVar 3 1] ++ [p]).
Proof.
  apply (in_place_agrees_with_pure [mkVar 2 1; mkVar 3 1] 0 1
           {| Value := 2; Deriv := 1 |} {| Value := 3; Deriv := 1 |}); reflexivity.
Defined.

Lemma dual_add_comm (x y : DualNumber) : dual_add x y = dual_add y x.
Proof.
  unfold dual_add. rewrite (Binary64.add_comm (Value x)), (Binary64.add_comm (Deriv x)).
  reflexivity.
Qed.

Lemma dual_mul_comm (x y : DualNumber) : dual_mul x y = dual_mul y x.
Proof.
  unfold dual_mul. f_equal.
  - apply Binary64.mul_comm.
  - rewrite Binary64.add_comm.
    rewrite (Binary64.mul_comm (Value x) (Deriv y)), (Binary64.mul_comm (Deriv x) (Value y)).
    reflexivity.
Qed.



Lemma sub_diag (x : float) : (x - x)%float = if is_finite x then 0%float else nan.
Proof.
  destruct (is_finite x) eqn:Hf.
  - apply Binary64.sub_self, Hf.
  - apply Binary64.sub_self_not_finite, Hf.
Qed.

(** X5: [v.Sub(v)] leaves [(0, 0)] in a Variable whose value and tangent
    are finite; a component that is infinite or NaN becomes NaN. *)
Theorem self_Sub (h : heap) (l : nat) (x d : float) :
  h !! l = Some (mkVar x d) →
  Variable_Sub (addr l) (addr l) h =
  (Ret (), <[l := mkVar (if is_finite x then 0 else nan) (if is_finite d then 0 else nan)]> h).
Proof.
  intros Hv. rewrite (Variable_Sub_run h l l _ _ Hv Hv). unfold dual_sub. cbn [Value Deriv].
  rewrite !sub_diag. reflexivity.
Qed.

Lemma self_Sub_witness :
  Variable_Sub (addr 0) (addr 0) [mkVar infinity 1] =
  (Ret (), <[0 := mkVar (if is_finite infinity then 0 else nan)
                        (if is_finite 1 then 0 else nan)]> [mkVar infinity 1]).
Proof. apply (self_Sub [mkVar infinity 1] 0 infinity 1). reflexivity. Defined.

(** X6: the chain rule on an input: for [v = NewInput(x)], the tangent of
    [Sin(v)] is [cos x], of [Cos(v)] is [-sin x], of [Exp(v)] is [exp x], of
    [Log(v)] is [1/x] and of [Pow(v, e)] is [e * x^(e-1)], with no rounding
    added by the seed; [Log] and [Pow] panic under their guards, after the
    input was allocated. *)
Theorem elementary_functions_of_an_input (math : mathpkg) (x e : float) (h : heap) :
  (v ← NewInput x; Sin math v) h =
    (Ret (addr (S (length h))), h ++ [mkVar x 1; mkVar (sin math x) (cos math x)]) ∧
  (v ← NewInput x; Cos math v) h =
    (Ret (addr (S (length h))), h ++ [mkVar x 1; mkVar (cos math x) (- sin math x)]) ∧
  (v ← NewInput x; Exp math v) h =
    (Ret (addr (S (length h))), h ++ [mkVar x 1; mkVar (exp math x) (exp math x)]) ∧
  (v ← NewInput x; Log math v) h =
    (if (x <=? 0)%float then (Abort LogDomainError, h ++ [mkVar x 1])
     else (Ret (addr (S (length h))), h ++ [mkVar x 1; mkVar (log math x) (1 / x)])) ∧
  (v ← NewInput x; Pow math v e) h =
    (if (x =? 0)%float && (e <=? 0)%float then (Abort PowDomainError, h ++ [mkVar x 1])
     else (Ret (addr (S (length h))),
           h ++ [mkVar x 1; mkVar (pow math x (e - 1) * x) (e * pow math x (e - 1))])).
Proof.
  assert (Hl : length (h ++ [mkVar x 1]) = S (length h)) by (rewrite length_app; cbn; lia).
  assert (Hv : (h ++ [mkVar x 1]) !! length h = Some (mkVar x 1)) by apply lookup_fresh.
  assert (Happ : ∀ r : Var, (h ++ [mkVar x 1]) ++ [r] = h ++ [mkVar x 1; r]).
  { intros r. rewrite <- app_assoc. reflexivity. }
  unfold NewInput. repeat split; erewrite (bind_ret (new _)) by reflexivity.
  - rewrite (Sin_run math _ _ _ _ Hv), Hl, Happ, Binary64.mul_1_r. reflexivity.
  - rewrite (Cos_run math _ _ _ _ Hv), Hl, Happ, Binary64.mul_1_r. reflexivity.
  - rewrite (Exp_run math _ _ _ _ Hv), Hl, Happ, Binary64.mul_1_r. reflexivity.
  - rewrite (Log_run math _ _ _ _ Hv), Hl, Happ. reflexivity.
  - rewrite (Pow_run math _ _ _ _ Hv), Hl, Happ, Binary64.mul_1_r. reflexivity.
Qed.

Lemma opp_mul_zero (x z : float) :
  is_finite x = true → is_zero z = true → is_zero (- x * z) = true.
Proof. intros Hx Hz. apply Binary64.mul_zero_r; [apply Binary64.opp_finite, Hx|exact Hz]. Qed.

(** X7: constants stay constants: on Variables with finite values and zero
    tangents, [Add], [Mul], [Sin], [Cos] and [Exp] return a Variable whose
    tangent is zero, provided the library's results are finite. *)
Theorem zero_tangents_stay_zero (math : mathpkg) (h : heap) (l1 l2 : nat) (a a' b b' : float) :
  h !! l1 = Some (mkVar a a') → h !! l2 = Some (mkVar b b') →
  is_zero a' = true → is_zero b' = true →
  is_finite a = true → is_finite b = true →
  is_finite (sin math a) = true → is_finite (cos math a) = true →
  is_finite (exp math a) = true →
  Forall (λ call : M ptr,
            ∃ r v, fst (call h) = Ret (addr r) ∧ snd (call h) !! r = Some v ∧
                   is_zero (Deriv (dual v)) = true)
         [Add (addr l1) (addr l2); Mul (addr l1) (addr l2);
          Sin math (addr l1); Cos math (addr l1); Exp math (addr l1)].
Proof.
  intros H1 H2 Za Zb Fa Fb Fsin Fcos Fexp.
  assert (Hres : ∀ (call : M ptr) (v : Var),
    call h = (Ret (addr (length h)), h ++ [v]) → is_zero (Deriv (dual v)) = true →
    ∃ r v', fst (call h) = Ret (addr r) ∧ snd (call h) !! r = Some v' ∧
            is_zero (Deriv (dual v')) = true).
  { intros call v Hrun Hz. exists (length h), v. rewrite Hrun.
    split; [reflexivity|]. split; [apply lookup_fresh|exact Hz]. }
  repeat apply Forall_cons_2; [..|apply Forall_nil_2].
  - eapply Hres; [apply (Add_run h l1 l2 _ _ H1 H2)|].
    cbn. apply Binary64.add_zero_zero; assumption.
  - eapply Hres; [apply (Mul_run h l1 l2 _ _ H1 H2)|].
    cbn. apply Binary64.add_zero_zero;
      [apply Binary64.mul_zero_l|apply Binary64.mul_zero_r]; assumption.
  - eapply Hres; [apply (Sin_run math h l1 a a' H1)|].
    cbn. apply Binary64.mul_zero_r; assumption.
  - eapply Hres; [apply (Cos_run math h l1 a a' H1)|].
    cbn. apply opp_mul_zero; assumption.
  - eapply Hres; [apply (Exp_run math h l1 a a' H1)|].
    cbn. apply Binary64.mul_zero_r; assumption.
Qed.

Lemma zero_tangents_stay_zero_witness :
  Forall (λ call : M ptr,
            ∃ r v, fst (call [mkVar 2 0; mkVar 3 0]) = Ret (addr r) ∧
                   snd (call [mkVar 2 0; mkVar 3 0]) !! r = Some v ∧
                   is_zero (Deriv (dual v)) = true)
         [Add (addr 0) (addr 1); Mul (addr 0) (addr 1);
          Sin math_at_two (addr 0); Cos math_at_two (addr 0); Exp math_at_two (addr 0)].
Proof.
  apply (zero_tangents_stay_zero math_at_two [mkVar 2 0; mkVar 3 0] 0 1 2 0 3 0);
    reflexivity.
Defined.

(** ** Expressions *)

Lemma hold_grow (h k : heap) vars ds : hold h vars ds → hold (h ++ k) vars ds.
Proof.
  unfold hold. intros H. eapply Forall2_impl; [exact H|].
  intros p d (l & -> & Hl). exists l. split; [reflexivity|apply lookup_old, Hl].
Qed.

Lemma hold_fresh (s : list Var) : ∀ h : heap,
  hold (h ++ s) (addr <$> seq (length h) (length s)) (dual <$> s).
Proof.
  induction s as [|x s IH]; intros h.
  - constructor.
  - cbn [length seq fmap list_fmap]. constructor.
    + exists (length h). split; [reflexivity|].
      rewrite list_lookup_middle by reflexivity. destruct x. reflexivity.
    + specialize (IH (h ++ [x])). rewrite <- app_assoc in IH.
      replace (length (h ++ [x])) with (S (length h)) in IH by (rewrite length_app; cbn; lia).
      exact IH.
Qed.

Lemma agrees_unary (h : heap) (m : M ptr) (f : ptr → M ptr) (o : outcome DualNumber)
    (g : DualNumber → outcome DualNumber) :
  agrees h (m h) o →
  (∀ (h1 : heap) l x, h1 !! l = Some {| dual := x |} → agrees h1 (f (addr l) h1) (g x)) →
  agrees h ((m ≫= f) h) (outcome_bind o g).
Proof.
  intros (k & Hk & Hm) Hf. rewrite bind_eq. destruct (m h) as [[r|p] h1]; cbn [fst snd] in *.
  - subst h1. destruct o as [d|p]; [|discriminate Hm].
    destruct Hm as (r' & [= ->] & Hr). cbn [outcome_bind].
    destruct (Hf _ _ _ Hr) as (k2 & Hk2 & Hres).
    exists (k ++ k2). rewrite app_assoc. split; [exact Hk2|exact Hres].
  - subst h1. destruct o as [d|p']; [destruct Hm as (r' & [=] & _)|].
    injection Hm as ->. exists k. split; reflexivity.
Qed.

Lemma agrees_binary (h : heap) (m1 m2 : M ptr) (f : ptr → ptr → M ptr)
    (o1 o2 : outcome DualNumber) (g : DualNumber → DualNumber → DualNumber) :
  agrees h (m1 h) o1 →
  (∀ k : heap, agrees (h ++ k) (m2 (h ++ k)) o2) →
  (∀ (h1 : heap) l1 l2 x y,
     h1 !! l1 = Some {| dual := x |} → h1 !! l2 = Some {| dual := y |} →
     f (addr l1) (addr l2) h1 = (Ret (addr (length h1)), h1 ++ [{| dual := g x y |}])) →
  agrees h ((x ← m1; y ← m2; f x y) h)
    (outcome_bind o1 (λ x, outcome_bind o2 (λ y, Ret (g x y)))).
Proof.
  intros (k & Hk & Hm) H2 Hf. rewrite bind_eq.
  destruct (m1 h) as [[r|p] h1]; cbn [fst snd] in *; subst h1.
  - destruct o1 as [d1|p]; [|discriminate Hm].
    destruct Hm as (r1 & [= ->] & Hr1). cbn [outcome_bind].
    destruct (H2 k) as (k2 & Hk2 & Hm2). rewrite bind_eq.
    destruct (m2 (h ++ k)) as [[r|p] h2]; cbn [fst snd] in *; subst h2.
    + destruct o2 as [d2|p]; [|discriminate Hm2].
      destruct Hm2 as (r2 & [= ->] & Hr2). cbn [outcome_bind].
      rewrite (Hf _ r1 r2 d1 d2 (lookup_old _ _ _ _ Hr1) Hr2).
      exists (k ++ k2 ++ [{| dual := g d1 d2 |}]). cbn [fst snd].
      rewrite !app_assoc. split; [reflexivity|].
      exists (length ((h ++ k) ++ k2)). split; [reflexivity|apply lookup_fresh].
    + destruct o2 as [d2|p']; [destruct Hm2 as (r' & [=] & _)|].
      injection Hm2 as ->. exists (k ++ k2). rewrite app_assoc. split; reflexivity.
  - destruct o1 as [d|p']; [destruct Hm as (r' & [=] & _)|].
    injection Hm as ->. exists k. split; reflexivity.
Qed.

Lemma agrees_new (h : heap) (m : M ptr) (d : DualNumber) :
  m h = (Ret (addr (length h)), h ++ [{| dual := d |}]) → agrees h (m h) (Ret d).
Proof.
  intros ->. exists [{| dual := d |}]. split; [reflexivity|].
  exists (length h). split; [reflexivity|apply lookup_fresh].
Qed.

(** The heap run of an expression against its Dual Value semantics, by
    induction on the expression. *)
Lemma eval_dual_eval (math : mathpkg) (e : expr) (h : heap)
    (vars : list ptr) (ds : list DualNumber) :
  hold h vars ds →
  agrees h (eval math e vars h) (dual_eval math e ds).
Proof.
  revert h. induction e as [i|c|a IHa b IHb|a IHa b IHb|a IH|a IH|a IH|a IH|a IH ex];
    intros h Hh; cbn [eval dual_eval].
  - exists []. rewrite app_nil_r. unfold index.
    destruct (vars !! i) as [p|] eqn:Hp.
    + destruct (Forall2_lookup_l _ _ _ _ _ Hh Hp) as (d & Hd & l & -> & Hl).
      rewrite Hd. split; [reflexivity|]. exists l. split; [reflexivity|exact Hl].
    + rewrite (lookup_ge_None_2 ds i); [split; reflexivity|].
      apply lookup_ge_None in Hp. pose proof (Forall2_length _ _ _ Hh). lia.
  - apply agrees_new. reflexivity.
  - apply agrees_binary; [apply IHa, Hh|intros k; apply IHb, hold_grow, Hh|].
    intros h1 l1 l2 x y Hx Hy. apply (Add_run h1 l1 l2 _ _ Hx Hy).
  - apply agrees_binary; [apply IHa, Hh|intros k; apply IHb, hold_grow, Hh|].
    intros h1 l1 l2 x y Hx Hy. apply (Mul_run h1 l1 l2 _ _ Hx Hy).
  - apply (agrees_unary h _ _ _ (λ x, Ret (dual_sin math x))); [apply IH, Hh|].
    intros h1 l [x d] Hx. apply agrees_new, (Sin_run math h1 l x d Hx).
  - apply (agrees_unary h _ _ _ (λ x, Ret (dual_cos math x))); [apply IH, Hh|].
    intros h1 l [x d] Hx. apply agrees_new, (Cos_run math h1 l x d Hx).
  - apply (agrees_unary h _ _ _ (λ x, Ret (dual_exp math x))); [apply IH, Hh|].
    intros h1 l [x d] Hx. apply agrees_new, (Exp_run math h1 l x d Hx).
  - apply agrees_unary; [apply IH, Hh|].
    intros h1 l [x d] Hx. pose proof (Log_run math h1 l x d Hx) as Hrun.
    unfold dual_log. cbn [Value Deriv]. destruct (x <=? 0)%float.
    + rewrite Hrun. exists []. rewrite app_nil_r. split; reflexivity.
    + apply agrees_new, Hrun.
  - apply (agrees_unary h _ _ _ (λ x, dual_pow math x ex)); [apply IH, Hh|].
    intros h1 l [x d] Hx. pose proof (Pow_run math h1 l x d Hx ex) as Hrun.
    unfold dual_pow. cbn [Value Deriv]. destruct ((x =? 0)%float && (ex <=? 0)%float).
    + rewrite Hrun. exists []. rewrite app_nil_r. split; reflexivity.
    + apply agrees_new, Hrun.
Qed.



Lemma partial_derivative_eval (math : mathpkg) (e : expr) (point : list float) (i : nat)
    (h : heap) :
  ∃ k, snd (partial_derivative (eval math e) point i h) = h ++ k ∧
       fst (partial_derivative (eval math e) point i h) =
       outcome_bind (dual_eval math e (dual <$> seeds i point)) (λ d, Ret (Deriv d)).
Proof.
  unfold partial_derivative. rewrite bind_eq.
  pose proof (hold_fresh (seeds i point) h) as Hh. rewrite seeds_length in Hh.
  destruct (eval_dual_eval math e _ _ _ Hh) as (k & Hk & Hres).
  destruct (eval math e _ (h ++ seeds i point)) as [[r|p] h1]; cbn [fst snd] in *; subst h1.
  - destruct (dual_eval math e _) as [d|p]; [|discriminate Hres].
    destruct Hres as (r' & [= ->] & Hr). rewrite (Variable_Deriv_run _ _ _ Hr).
    exists (seeds i point ++ k). rewrite app_assoc. split; reflexivity.
  - destruct (dual_eval math e _) as [d|p']; [destruct Hres as (r' & [=] & _)|].
    injection Hres as ->. exists (seeds i point ++ k). rewrite app_assoc. split; reflexivity.
Qed.

Lemma gradient_by_dimension_eval (math : mathpkg) (e : expr) (point : list float)
    (dims : list nat) : ∀ h : heap,
  ∃ k, snd (gradient_by_dimension (eval math e) point dims h) = h ++ k ∧
       fst (gradient_by_dimension (eval math e) point dims h) =
       dual_gradient_dims math e point dims.
Proof.
  induction dims as [|i dims IH]; intros h.
  - exists []. rewrite app_nil_r. split; reflexivity.
  - cbn [gradient_by_dimension dual_gradient_dims]. rewrite bind_eq.
    destruct (partial_derivative_eval math e point i h) as (k & Hk & Hres).
    destruct (partial_derivative (eval math e) point i h) as [[d|p] h1];
      cbn [fst snd] in *; subst h1.
    + destruct (dual_eval math e _) as [d'|p]; [|discriminate Hres].
      cbn [outcome_bind] in *. injection Hres as ->. rewrite bind_eq.
      destruct (IH (h ++ k)) as (k2 & Hk2 & Hres2).
      destruct (gradient_by_dimension (eval math e) point dims (h ++ k)) as [[ds|p] h2];
        cbn [fst snd] in *; subst h2; rewrite <- Hres2;
        exists (k ++ k2); rewrite app_assoc; split; reflexivity.
    + destruct (dual_eval math e _) as [d'|p']; [discriminate Hres|].
      cbn [outcome_bind] in *. injection Hres as ->. exists k. split; reflexivity.
Qed.

Lemma Gradient_eval (math : mathpkg) (e : expr) (point : list float) (h : heap) :
  fst (Gradient (eval math e) point h) = dual_gradient math e point ∧
  ∃ k, snd (Gradient (eval math e) point h) = h ++ k.
Proof.
  rewrite Gradient_by_dimension.
  destruct (gradient_by_dimension_eval math e point (seq 0 (length point)) h)
    as (k & Hk & Hres).
  split; [exact Hres|exists k; exact Hk].
Qed.


Lemma mret_eq {A} (a : A) (h : heap) : (mret a : M A) h = (Ret a, h).
Proof. reflexivity. Qed.

Lemma gradient_by_dimension_app f point (d1 d2 : list nat) : ∀ h : heap,
  gradient_by_dimension f point (d1 ++ d2) h =
  match gradient_by_dimension f point d1 h with
  | (Ret ds, h1) => (ds2 ← gradient_by_dimension f point d2; mret (ds ++ ds2)) h1
  | (Abort p, h1) => (Abort p, h1)
  end.
Proof.
  induction d1 as [|i d1 IH]; intros h.
  - cbn. rewrite bind_eq. destruct (gradient_by_dimension f point d2 h) as [[ds|p] h1];
      reflexivity.
  - cbn [app gradient_by_dimension]. rewrite !bind_eq.
    destruct (partial_derivative f point i h) as [[d|p] h1]; [|reflexivity].
    rewrite !bind_eq, IH.
    destruct (gradient_by_dimension f point d1 h1) as [[ds|p] h2]; [|reflexivity].
    rewrite !mret_eq. cbv beta iota. rewrite !bind_eq.
    destruct (gradient_by_dimension f point d2 h2) as [[ds2|p] h3]; reflexivity.
Qed.

(** X10: [Gradient] stops at the first failure: when the passes of the
    dimensions before [i] returned and [f] panics in the pass of dimension
    [i], [Gradient] panics with the same panic, in the heap [f] left, and no
    later pass is run. *)
Theorem Gradient_stops_at_first_failure (f : list ptr → M ptr) (inputs : list float)
    (h : heap) (i : nat) (ds : list float) (hi h' : heap) (p : panic) :
  i < length inputs →
  gradient_by_dimension f inputs (seq 0 i) h = (Ret ds, hi) →
  f (addr <$> seq (length hi) (length inputs)) (hi ++ seeds i inputs) = (Abort p, h') →
  Gradient f inputs h = (Abort p, h').
Proof.
  intros Hi Hbefore Hf. rewrite Gradient_by_dimension.
  replace (length inputs) with (i + S (length inputs - S i)) at 1 by lia.
  rewrite seq_app, gradient_by_dimension_app, Hbefore.
  cbn [seq gradient_by_dimension Nat.add]. rewrite bind_eq, bind_eq.
  unfold partial_derivative at 1. rewrite bind_eq, Hf. reflexivity.
Qed.

Lemma Gradient_stops_at_first_failure_witness :
  Gradient quotient01 [1; 0]%float [] = (Abort DivisionByZero, [mkVar 1 1; mkVar 0 0]).
Proof.
  apply (Gradient_stops_at_first_failure quotient01 [1; 0]%float [] 0 [] []);
    [cbn; lia|reflexivity|reflexivity].
Defined.

Lemma main_dy_run (math : mathpkg) (h : heap) :
  fst (main_dy math h) = Ret (2 + cos math 2 * 0)%float.
Proof.
  unfold main_dy, NewInput, NewScalar.
  erewrite (bind_ret (new _)) by reflexivity.
  erewrite (bind_ret (new _)) by reflexivity.
  set (h2 := (h ++ [mkVar 2 0]) ++ [mkVar 3 1]).
  assert (Hx : h2 !! length h = Some (mkVar 2 0)).
  { unfold h2. apply lookup_old, lookup_fresh. }
  assert (Hy : h2 !! length (h ++ [mkVar 2 0]) = Some (mkVar 3 1)).
  { unfold h2. apply lookup_fresh. }
  erewrite bind_ret by (apply (Mul_run h2 _ _ _ _ Hx Hy)).
  erewrite bind_ret by (apply Sin_run, lookup_old, Hx).
  set (h3 := h2 ++ _). set (h4 := h3 ++ _).
  assert (H1 : h4 !! length h2 =
    Some {| dual := dual_mul {| Value := 2; Deriv := 0 |} {| Value := 3; Deriv := 1 |} |}).
  { unfold h4, h3. apply lookup_old, lookup_fresh. }
  assert (H2 : h4 !! length h3 = Some (mkVar (sin math 2) (cos math 2 * 0))).
  { unfold h4. apply lookup_fresh. }
  erewrite bind_ret by (apply (Add_run h4 _ _ _ _ H1 H2)).
  erewrite Variable_Deriv_run by apply lookup_fresh.
  reflexivity.
Qed.

(** X11: what [main] prints: the value [6 + sin 2], "df/dx" [5 + cos 2]
    (both [x] and [y] seeded), and "df/dy" exactly [2], whenever the
    library's [Cos(2)] is finite. *)
Theorem main_prints (math : mathpkg) (h : heap) :
  is_finite (math_Cos math 2) = true →
  fst (main_printed math h) =
  Ret (6 + sin math 2, 5 + cos math 2, 2)%float.
Proof.
  intros Hc. unfold main_printed. rewrite bind_eq.
  pose proof (main_z_run math h) as Hz.
  destruct (main_z math h) as [[[value dx]|p] h1]; cbn [fst] in Hz; [|discriminate Hz].
  injection Hz as -> ->. rewrite bind_eq.
  pose proof (main_dy_run math h1) as Hdy.
  destruct (main_dy math h1) as [[dy|p] h2]; cbn [fst] in Hdy; [|discriminate Hdy].
  injection Hdy as ->. cbn [fst mret M_ret].
  rewrite (Binary64.add_zero_r 2 (cos math 2 * 0));
    [reflexivity|reflexivity|apply Binary64.mul_zero_r; [exact Hc|reflexivity]].
Qed.

Lemma main_prints_witness :
  fst (main_printed math_table []) =
  Ret (6 + sin math_table 2, 5 + cos math_table 2, 2)%float.
Proof. apply (main_prints math_table []). reflexivity. Defined.

(** X12: the gradient of [f(v) = Add(Mul(v[0], v[1]), Sin(v[0]))] at
    [(x, y)] is exactly [[y + cos x, x]], for [x] and [y] finite and not zero
    and a finite [Cos(x)]. *)
Theorem Gradient_xy_plus_sin_x (math : mathpkg) (x y : float) (h : heap) :
  is_finite x = true → is_zero x = false →
  is_finite y = true → is_zero y = false →
  is_finite (math_Cos math x) = true →
  fst (Gradient (eval math xy_plus_sin_x) [x; y] h) = Ret [(y + cos math x)%float; x].
Proof.
  intros Fx Zx Fy Zy Fc.
  rewrite (proj1 (Gradient_eval math xy_plus_sin_x [x; y] h)).
  assert (S0 : dual <$> seeds 0 [x; y] =
                 [{| Value := x; Deriv := 1 |}; {| Value := y; Deriv := 0 |}]) by reflexivity.
  assert (S1 : dual <$> seeds 1 [x; y] =
                 [{| Value := x; Deriv := 0 |}; {| Value := y; Deriv := 1 |}]) by reflexivity.
  unfold dual_gradient. cbn [length seq dual_gradient_dims]. rewrite S0, S1.
  unfold xy_plus_sin_x. cbn [dual_eval lookup list_lookup outcome_bind].
  unfold dual_add, dual_mul, dual_sin. cbn [Value Deriv].
  rewrite Binary64.mul_1_l, !Binary64.mul_1_r.
  rewrite (Binary64.add_zero_r y (x * 0)) by
    (first [exact Zy|apply Binary64.mul_zero_r; [exact Fx|reflexivity]]).
  rewrite (Binary64.add_zero_l x (0 * y)) by
    (first [exact Zx|apply Binary64.mul_zero_l; [exact Fy|reflexivity]]).
  rewrite (Binary64.add_zero_r x (cos math x * 0)) by
    (first [exact Zx|apply Binary64.mul_zero_r; [exact Fc|reflexivity]]).
  reflexivity.
Qed.

Lemma Gradient_xy_plus_sin_x_witness :
  fst (Gradient (eval math_table xy_plus_sin_x) [2; 3]%float []) =
  Ret [(3 + cos math_table 2)%float; 2%float].
Proof. apply (Gradient_xy_plus_sin_x math_table 2 3 []); reflexivity. Defined.

Lemma product01_in_place_pass (i : nat) (x y a b : float) (k : heap) :
  seeds i [x; y] = [mkVar x a; mkVar y b] →
  fst (partial_derivative product01_in_place [x; y] i k) = Ret (a * y + x * b)%float.
Proof.
  intros Hs. unfold partial_derivative, product01_in_place. rewrite Hs.
  cbn [length seq fmap list_fmap].
  assert (H0 : (k ++ [mkVar x a; mkVar y b]) !! length k = Some (mkVar x a)).
  { apply list_lookup_middle. reflexivity. }
  assert (H1 : (k ++ [mkVar x a; mkVar y b]) !! S (length k) = Some (mkVar y b)).
  { rewrite (cons_middle (mkVar x a) k [mkVar y b]), app_assoc.
    apply list_lookup_middle. rewrite length_app. cbn. lia. }
  erewrite bind_ret.
  2:{ erewrite (bind_ret (index _ 0)) by reflexivity.
      erewrite (bind_ret (index _ 1)) by reflexivity.
      erewrite bind_ret by (apply (Variable_Mul_run _ _ _ _ _ H0 H1)).
      reflexivity. }
  erewrite Variable_Deriv_run by (eapply lookup_written, H0).
  reflexivity.
Qed.

Lemma product01_pass (i : nat) (x y a b : float) (k : heap) :
  seeds i [x; y] = [mkVar x a; mkVar y b] →
  fst (partial_derivative product01 [x; y] i k) = Ret (a * y + x * b)%float.
Proof.
  intros Hs.
  destruct (partial_derivative_eval math_table (EMul (EVar 0) (EVar 1)) [x; y] i k)
    as (_ & _ & Hres).
  change (eval math_table (EMul (EVar 0) (EVar 1))) with product01 in Hres.
  rewrite Hres, Hs. reflexivity.
Qed.

Lemma gradient_two_passes (f : list ptr → M ptr) (point : list float) (h : heap)
    (d0 d1 : float) :
  (∀ k, fst (partial_derivative f point 0 k) = Ret d0) →
  (∀ k, fst (partial_derivative f point 1 k) = Ret d1) →
  fst (gradient_by_dimension f point [0; 1] h) = Ret [d0; d1].
Proof.
  intros H0 H1. cbn [gradient_by_dimension]. rewrite bind_eq.
  specialize (H0 h). destruct (partial_derivative f point 0 h) as [[d|p] h1];
    cbn [fst] in H0; [|discriminate H0]. injection H0 as ->.
  rewrite !bind_eq. specialize (H1 h1).
  destruct (partial_derivative f point 1 h1) as [[d|p] h2];
    cbn [fst] in H1; [|discriminate H1]. injection H1 as ->.
  reflexivity.
Qed.

(** X13: a function that multiplies in place, [v[0].Mul(v[1])], has the
    gradient of the pure product: each pass of [Gradient] has Variables of
    its own, so what one pass overwrites is not seen by the next. The
    gradient at [(x, y)] is [[1*y + x*0, 0*y + x*1]], which is [[y, x]] for
    [x] and [y] finite and not zero. *)
Theorem Gradient_of_in_place_product (x y : float) (h : heap) :
  fst (Gradient product01_in_place [x; y] h) =
    Ret [(1 * y + x * 0)%float; (0 * y + x * 1)%float] ∧
  fst (Gradient product01 [x; y] h) = fst (Gradient product01_in_place [x; y] h) ∧
  (is_finite x = true → is_zero x = false → is_finite y = true → is_zero y = false →
   fst (Gradient product01_in_place [x; y] h) = Ret [y; x]).
Proof.
  rewrite !Gradient_by_dimension. cbn [length seq].
  rewrite (gradient_two_passes product01_in_place [x; y] h (1 * y + x * 0) (0 * y + x * 1))
    by (intros k; apply product01_in_place_pass; reflexivity).
  rewrite (gradient_two_passes product01 [x; y] h (1 * y + x * 0) (0 * y + x * 1))
    by (intros k; apply product01_pass; reflexivity).
  split; [reflexivity|]. split; [reflexivity|].
  intros Fx Zx Fy Zy. rewrite Binary64.mul_1_l, Binary64.mul_1_r.
  rewrite (Binary64.add_zero_r y (x * 0)) by
    (first [exact Zy|apply Binary64.mul_zero_r; [exact Fx|reflexivity]]).
  rewrite (Binary64.add_zero_l x (0 * y)) by
    (first [exact Zx|apply Binary64.mul_zero_l; [exact Fy|reflexivity]]).
  reflexivity.
Qed.

Lemma Gradient_of_in_place_product_witness :
  fst (Gradient product01_in_place [2; 3]%float []) = Ret [3; 2]%float.
Proof.
  apply (proj2 (proj2 (Gradient_of_in_place_product 2 3 []))); reflexivity.
Defined.
